(** * algo-trader: order book, exchange and market-data aggregation

    A shallow embedding of [src/include/exchange.h], [src/src/exchange.cpp]
    and [src/src/marketdata.cpp], with the properties the design document
    states about them.

    Conventions.
    - [int] is a 32-bit two's-complement integer, carried as a [Z]; every
      arithmetic result the source stores back into an [int] goes through
      [wrap_int] (signed overflow, which C++ leaves undefined, is taken to
      wrap around, as it does on the machines the program is built for).
    - a [double] that the code stores, copies and compares (the price of
      an order, a last price, an entry of the price history) is carried as
      the rational it holds, a [Q]; comparisons are the boolean ones of
      [Q], and equality of prices is [Qeq].  This leaves NaN and the
      infinities out.  Where the code computes with doubles (the price of
      a trade, the historical average, the averaging of
      [broadcast_prices]) the computation is given on IEEE binary64, on
      Rocq's primitive floats ([trade_price_double],
      [get_historical_average_double], [broadcast_prices]), and what is
      stated about a computed value is stated of those.  [match_step] and
      [get_historical_average] read the same lines in exact arithmetic,
      which is what binary64 gives on the prices of the two scenarios of
      the design document ([scenario_prices_exact]).
    - [std::vector] and [std::queue] are lists; [v[i]] is stdpp's lookup,
      an in-place write to [v[i]] is stdpp's insert.
    - a non-[const] method of [Exchange] is a function
      [Exchange -> A * Exchange]; so is a [const] one, which hands its
      receiver back. *)

From Stdlib Require Import ZArith QArith Lia Lqa.
From Stdlib Require Import Floats.PrimFloat Floats.SpecFloat Floats.FloatOps.
From Stdlib Require Import Numbers.Cyclic.Int63.Uint63.
From stdpp Require Import base tactics option list sorting.

Local Open Scope Z_scope.

(** ** Machine integers *)

Definition INT_MIN : Z := -2147483648.
Definition INT_MAX : Z := 2147483647.

(** The value an [int] holds after a result [z] is stored in it. *)
Definition wrap_int (z : Z) : Z := (z + 2147483648) mod 4294967296 - 2147483648.

Definition int_range (z : Z) : Prop := INT_MIN <= z <= INT_MAX.

(** ** Data model ([exchange.h]) *)

Record Order := mkOrder {
  agent_id : Z;
  instrument_id : Z;
  price : Q;
  volume : Z;
  is_buy : bool;
  timestamp : Z;
  order_id : Z
}.

Record Trade := mkTrade {
  buy_agent_id : Z;
  sell_agent_id : Z;
  trade_instrument_id : Z;
  trade_price : Q;
  trade_volume : Z;
  trade_timestamp : Z
}.

Record OrderBook := mkOrderBook {
  bids : list Order;
  asks : list Order;
  last_price : Q;
  price_history : list Q
}.

Record Exchange := mkExchange {
  rank : Z;
  num_instruments : Z;
  order_books : list OrderBook;
  pending_orders : list Order;
  trade_log : list Trade;
  next_order_id : Z
}.

Definition set_volume (o : Order) (v : Z) : Order :=
  mkOrder (agent_id o) (instrument_id o) (price o) v (is_buy o) (timestamp o) (order_id o).

Definition set_order_id (o : Order) (i : Z) : Order :=
  mkOrder (agent_id o) (instrument_id o) (price o) (volume o) (is_buy o) (timestamp o) i.

(** [OrderBook::OrderBook()]: [last_price(100.0)], and the history is seeded
    with it. *)
Definition OrderBook_new : OrderBook :=
  mkOrderBook [] [] 100%Q [100%Q].

(** ** OrderBook ([exchange.cpp]) *)

Definition Qltb (x y : Q) : bool := negb (Qle_bool y x).

(** [a.price != b.price ? a.price > b.price : a.timestamp < b.timestamp] *)
Definition bid_cmp (a b : Order) : bool :=
  if negb (Qeq_bool (price a) (price b))
  then Qltb (price b) (price a)
  else timestamp a <? timestamp b.

(** [a.price != b.price ? a.price < b.price : a.timestamp < b.timestamp] *)
Definition ask_cmp (a b : Order) : bool :=
  if negb (Qeq_bool (price a) (price b))
  then Qltb (price a) (price b)
  else timestamp a <? timestamp b.

(** [std::sort(first, last, cmp)].  The standard leaves the relative order
    of elements that [cmp] does not separate unspecified; this model keeps
    them in their original order (an insertion sort).  No statement below
    depends on that choice: what is used of the result is that it is a
    permutation of the range ([std_sort_perm]) in the order of [cmp]
    ([std_sort_sorted]). *)
Fixpoint sort_insert (cmp : Order -> Order -> bool) (x : Order) (l : list Order)
  : list Order :=
  match l with
  | [] => [x]
  | y :: l' => if cmp y x then y :: sort_insert cmp x l' else x :: y :: l'
  end.

Definition std_sort (cmp : Order -> Order -> bool) (l : list Order) : list Order :=
  foldr (sort_insert cmp) [] l.

Definition add_order (order : Order) (ob : OrderBook) : OrderBook :=
  if is_buy order
  then mkOrderBook (bids ob ++ [order]) (asks ob) (last_price ob) (price_history ob)
  else mkOrderBook (bids ob) (asks ob ++ [order]) (last_price ob) (price_history ob).

(** The state of the [while] loop of [match_orders]: the book (whose
    vectors, last price and history the loop writes in place), the two
    cursors [bi] and [ai], and the local [trades]. *)
Record MatchState := mkMatchState {
  ms_book : OrderBook;
  ms_bi : nat;
  ms_ai : nat;
  ms_trades : list Trade
}.

(** One evaluation of the loop: [None] when the loop is left (a cursor at
    the end of its vector, or [bid.price < ask.price]), otherwise the state
    after the body.  The price of the trade is read in exact arithmetic;
    the double the code computes is [trade_price_double] below. *)
Definition match_step (current_tick : Z) (s : MatchState) : option MatchState :=
  let ob := ms_book s in
  match bids ob !! ms_bi s, asks ob !! ms_ai s with
  | Some bid, Some ask =>
      if Qltb (price bid) (price ask) then None
      else
        let vol := Z.min (volume bid) (volume ask) in
        let t := mkTrade (agent_id bid) (agent_id ask) (instrument_id bid)
                         ((price bid + price ask) * (1 # 2))%Q vol current_tick in
        let bid' := set_volume bid (wrap_int (volume bid - vol)) in
        let ask' := set_volume ask (wrap_int (volume ask - vol)) in
        Some (mkMatchState
                (mkOrderBook (<[ms_bi s := bid']> (bids ob))
                             (<[ms_ai s := ask']> (asks ob))
                             (trade_price t)
                             (price_history ob ++ [trade_price t]))
                (if volume bid' =? 0 then S (ms_bi s) else ms_bi s)
                (if volume ask' =? 0 then S (ms_ai s) else ms_ai s)
                (ms_trades s ++ [t]))
  | _, _ => None
  end.

(** The loop, run for at most [fuel] iterations. *)
Fixpoint match_loop (current_tick : Z) (fuel : nat) (s : MatchState) : MatchState :=
  match fuel with
  | O => s
  | S fuel' =>
      match match_step current_tick s with
      | None => s
      | Some s' => match_loop current_tick fuel' s'
      end
  end.

(** The book after the two [std::sort] calls that open [match_orders]. *)
Definition sorted_book (ob : OrderBook) : OrderBook :=
  mkOrderBook (std_sort bid_cmp (bids ob)) (std_sort ask_cmp (asks ob))
              (last_price ob) (price_history ob).

(** [OrderBook::match_orders]: sort both sides, run the loop from the top of
    both, erase the consumed prefixes.  Every iteration advances a cursor
    ([match_loop_exits] below), so [|bids| + |asks|] iterations are enough. *)
Definition match_orders (current_tick : Z) (ob : OrderBook) : list Trade * OrderBook :=
  let s := match_loop current_tick (length (bids ob) + length (asks ob))
                      (mkMatchState (sorted_book ob) 0 0 []) in
  (ms_trades s,
   mkOrderBook (drop (ms_bi s) (bids (ms_book s)))
               (drop (ms_ai s) (asks (ms_book s)))
               (last_price (ms_book s))
               (price_history (ms_book s))).

Definition Qsum (l : list Q) : Q := foldl Qplus 0%Q l.

(** [OrderBook::get_historical_average], read in exact arithmetic; the
    double the code computes is [get_historical_average_double] below. *)
Definition get_historical_average (ob : OrderBook) : Q :=
  match price_history ob with
  | [] => last_price ob
  | _ => (Qsum (price_history ob) / inject_Z (Z.of_nat (length (price_history ob))))%Q
  end.

Definition get_last_price (ob : OrderBook) : Q := last_price ob.

(** ** Exchange ([exchange.cpp]) *)

(** A method of [Exchange]: result and receiver afterwards. *)
Definition Method (A : Type) : Type := Exchange -> A * Exchange.

(** [Exchange::Exchange(rank, num_instruments)].  [order_books.resize] is
    handed the count converted to [size_t]; a negative count becomes a size
    above [max_size()] and [resize] throws, which is [None] here. *)
Definition Exchange_new (rank_ num_instruments_ : Z) : option Exchange :=
  if num_instruments_ <? 0 then None
  else Some (mkExchange rank_ num_instruments_
                        (replicate (Z.to_nat num_instruments_) OrderBook_new)
                        [] [] 1).

(** [o.order_id = next_order_id++; pending_orders.push(o)] *)
Definition submit_order (order : Order) : Method unit := fun e =>
  (tt,
   mkExchange (rank e) (num_instruments e) (order_books e)
              (pending_orders e ++ [set_order_id order (next_order_id e)])
              (trade_log e)
              (wrap_int (next_order_id e + 1))).

(** [o.instrument_id >= 0 && o.instrument_id < (int)order_books.size()].
    The vector is sized from an [int] by the constructor and never resized,
    so the conversion of its size to [int] is exact. *)
Definition valid_instrument (books : list OrderBook) (i : Z) : bool :=
  (0 <=? i) && (i <? Z.of_nat (length books)).

(** The body of the draining loop for one popped order. *)
Definition route_order (books : list OrderBook) (o : Order) : list OrderBook :=
  if valid_instrument books (instrument_id o)
  then alter (add_order o) (Z.to_nat (instrument_id o)) books
  else books.

(** [while (!pending_orders.empty())]: the queue is drained front to back. *)
Definition route_pending (books : list OrderBook) (pending : list Order)
  : list OrderBook :=
  foldl route_order books pending.

(** The [for] loop over [order_books], in ascending index: the books after
    matching, [trades_total] and [trade_log]. *)
Fixpoint match_all (current_tick : Z) (books : list OrderBook)
         (trades_total : Z) (log : list Trade)
  : list OrderBook * Z * list Trade :=
  match books with
  | [] => ([], trades_total, log)
  | ob :: rest =>
      let '(t, ob') := match_orders current_tick ob in
      let '(rest', total', log') :=
        match_all current_tick rest
                  (wrap_int (trades_total + wrap_int (Z.of_nat (length t))))
                  (log ++ t) in
      (ob' :: rest', total', log')
  end.

(** [Exchange::process_orders]: drain the queue into the books, match every
    book, return the number of trades. *)
Definition process_orders (current_tick : Z) : Method Z := fun e =>
  let routed := route_pending (order_books e) (pending_orders e) in
  let '(books', trades_total, log') := match_all current_tick routed 0 (trade_log e) in
  (trades_total,
   mkExchange (rank e) (num_instruments e) books' [] log' (next_order_id e)).

(** [Exchange::get_price]; the inner [None] cannot occur under the guard. *)
Definition get_price (instrument_id_ : Z) : Method Q := fun e =>
  (if valid_instrument (order_books e) instrument_id_
   then match order_books e !! Z.to_nat instrument_id_ with
        | Some ob => get_last_price ob
        | None => 0%Q
        end
   else 0%Q,
   e).

(** [Exchange::get_historical_average] (the name without prefix is the
    method of [OrderBook]). *)
Definition Exchange_get_historical_average (instrument_id_ : Z) : Method Q := fun e =>
  (if valid_instrument (order_books e) instrument_id_
   then match order_books e !! Z.to_nat instrument_id_ with
        | Some ob => get_historical_average ob
        | None => 0%Q
        end
   else 0%Q,
   e).

Definition get_all_prices : Method (list Q) := fun e =>
  (get_last_price <$> order_books e, e).

(** [Exchange::export_price_history]: what it hands to the output stream
    after the header line, row by row: [tick], then for each book the
    double [v].  [max_len] is the longest history; [v] is [hist[tick]]
    while [tick < hist.size()], then [hist.back()], or [0.0] for an empty
    history.  The characters the stream prints for a number are the
    stream's matter and are not modelled. *)
Definition longest_history (books : list OrderBook) : nat :=
  foldl (fun max_len ob => Nat.max max_len (length (price_history ob))) 0%nat books.

Definition history_value (hist : list Q) (tick : nat) : Q :=
  match hist !! tick with
  | Some v => v
  | None => match last hist with Some v => v | None => 0%Q end
  end.

Definition export_price_history (e : Exchange) : list (nat * list Q) :=
  (fun tick => (tick, (fun ob => history_value (price_history ob) tick) <$> order_books e))
    <$> seq 0 (longest_history (order_books e)).

(** ** Market data ([marketdata.cpp]) *)

Record MarketDataManager := mkMarketDataManager {
  md_rank : Z;
  md_size : Z
}.

(** ** Double arithmetic

    The lines of the source whose result is computed in [double], on IEEE
    binary64 (Rocq's primitive floats: round to nearest, ties to even). *)

(** The rational a finite double holds; an infinity or a NaN holds none. *)
Definition double_value (x : float) : option Q :=
  match Prim2SF x with
  | S754_zero _ => Some 0%Q
  | S754_finite s m e =>
      Some ((if s then -1 else 1) * inject_Z (Z.pos m) * Qpower 2 e)%Q
  | _ => None
  end.

(** What the doubles of a sequence hold, when all of them are finite. *)
Definition double_values (xs : list float) : option (list Q) :=
  mapM double_value xs.

(** The conversion of a [size_t] and of an [int] to [double]: exact, since
    a vector has fewer than 2^53 elements and an [int] fewer than 2^53
    values. *)
Definition double_of_size (n : nat) : float :=
  PrimFloat.of_uint63 (Uint63.of_Z (Z.of_nat n)).

Definition double_of_int (z : Z) : float :=
  if z <? 0
  then PrimFloat.opp (PrimFloat.of_uint63 (Uint63.of_Z (- z)))
  else PrimFloat.of_uint63 (Uint63.of_Z z).

(** [t.price = (bid.price + ask.price) * 0.5] in [match_orders]. *)
Definition trade_price_double (bid_price ask_price : float) : float :=
  ((bid_price + ask_price) * 0.5)%float.

(** The two [double] members of an [OrderBook], [last_price] and
    [price_history], and the two places that write them: the constructor
    ([last_price(100.0)], [price_history.push_back(last_price)]) and the
    body of the loop of [match_orders] ([last_price = t.price],
    [price_history.push_back(t.price)]). *)
Record BookPrices := mkBookPrices {
  bp_last_price : float;
  bp_price_history : list float
}.

Definition BookPrices_new : BookPrices := mkBookPrices 100%float [100%float].

Definition record_trade (bid_price ask_price : float) (p : BookPrices) : BookPrices :=
  let t_price := trade_price_double bid_price ask_price in
  mkBookPrices t_price (bp_price_history p ++ [t_price]).

Inductive prices_reachable : BookPrices -> Prop :=
| prices_reachable_new : prices_reachable BookPrices_new
| prices_reachable_trade bid_price ask_price p :
    prices_reachable p -> prices_reachable (record_trade bid_price ask_price p).

(** [OrderBook::get_historical_average]: [std::accumulate] from [0.0],
    left to right, then the division by [price_history.size()]. *)
Definition get_historical_average_double (p : BookPrices) : float :=
  match bp_price_history p with
  | [] => bp_last_price p
  | _ => (foldl PrimFloat.add 0%float (bp_price_history p)
          / double_of_size (length (bp_price_history p)))%float
  end.

(** [MPI_Allreduce] is the MPI library's.  With [MPI_DOUBLE] and [MPI_SUM]
    the standard has every rank receive, for each element, the sum of that
    element over the send buffers of all ranks; the additions are made in
    double, in an order and a grouping the library is free to choose.  A
    [Reduction] is one such choice. *)
Inductive Reduction :=
| Contribution (x : float)
| Combined (l r : Reduction).

Fixpoint reduction_value (t : Reduction) : float :=
  match t with
  | Contribution x => x
  | Combined l r => (reduction_value l + reduction_value r)%float
  end.

Fixpoint contributions (t : Reduction) : list float :=
  match t with
  | Contribution x => [x]
  | Combined l r => contributions l ++ contributions r
  end.

(** [s] is a double sum of the values [xs], each taken once. *)
Definition MPI_SUM (xs : list float) (s : float) : Prop :=
  exists t, contributions t ≡ₚ xs /\ reduction_value t = s.

(** The values the vectors [world] hold at position [i]. *)
Definition column (i : nat) (world : list (list float)) : list float :=
  omap (fun v => v !! i) world.

(** What the call leaves in the receive buffer when the ranks of the
    communicator send the buffers [world], [count] elements each. *)
Definition MPI_Allreduce_SUM (world : list (list float)) (count : nat)
           (recvbuf : list float) : Prop :=
  length recvbuf = count /\
  forall i s, recvbuf !! i = Some s -> MPI_SUM (column i world) s.

(** [MarketDataManager::broadcast_prices].  [allreduce sendbuf count] is
    what [MPI_Allreduce] leaves in [summed]; then [v /= size] for every
    element. *)
Definition broadcast_prices (allreduce : list float -> nat -> list float)
           (m : MarketDataManager) (local_prices : list float) : list float :=
  let summed := allreduce local_prices (length local_prices) in
  (fun v => (v / double_of_int (md_size m))%float) <$> summed.

(** ** Runs of an exchange *)

(** The calls a node makes on its exchange.  [submit_order] and the
    draining part of [process_orders] run under [order_mutex], so calls made
    from several threads take effect one after the other: a run is the list
    of calls in the order in which they take the lock. *)
Inductive Call :=
| Submit (order : Order)
| Process (current_tick : Z).

Definition call (c : Call) (e : Exchange) : Exchange :=
  match c with
  | Submit o => snd (submit_order o e)
  | Process tick => snd (process_orders tick e)
  end.

Definition run (cs : list Call) (e : Exchange) : Exchange := foldl (fun e c => call c e) e cs.

(** The orders a run hands to [submit_order], in order. *)
Definition submitted (cs : list Call) : list Order :=
  omap (fun c => match c with Submit o => Some o | Process _ => None end) cs.

(** The ids [submit_order] writes into the orders of a run, in order. *)
Fixpoint assigned_ids (cs : list Call) (e : Exchange) : list Z :=
  match cs with
  | [] => []
  | Submit o :: cs' => next_order_id e :: assigned_ids cs' (call (Submit o) e)
  | c :: cs' => assigned_ids cs' (call c e)
  end.

(** The states an exchange goes through from its construction. *)
Inductive reachable : Exchange -> Prop :=
| reachable_new rank_ n e :
    Exchange_new rank_ n = Some e -> reachable e
| reachable_call c e :
    reachable e -> reachable (call c e).

(** The states an order book goes through from its construction. *)
Inductive book_reachable : OrderBook -> Prop :=
| book_reachable_new : book_reachable OrderBook_new
| book_reachable_add o ob :
    book_reachable ob -> book_reachable (add_order o ob)
| book_reachable_match tick ob :
    book_reachable ob -> book_reachable (snd (match_orders tick ob)).

(** ** Specification vocabulary *)

(** [x] may stand before [y] in a range sorted by [cmp]. *)
Definition not_after (cmp : Order -> Order -> bool) (x y : Order) : Prop :=
  cmp y x = false.

(** What the loop of [match_orders] matched, iteration by iteration: the
    cursors and the two orders under them as they were when the body
    started. *)
Record Match := mkMatch {
  m_bi : nat;
  m_ai : nat;
  m_bid : Order;
  m_ask : Order
}.

Fixpoint loop_matches (current_tick : Z) (fuel : nat) (s : MatchState) : list Match :=
  match fuel with
  | O => []
  | S fuel' =>
      match match_step current_tick s with
      | None => []
      | Some s' =>
          match bids (ms_book s) !! ms_bi s, asks (ms_book s) !! ms_ai s with
          | Some b, Some a =>
              mkMatch (ms_bi s) (ms_ai s) b a :: loop_matches current_tick fuel' s'
          | _, _ => []
          end
      end
  end.

Definition match_orders_matches (current_tick : Z) (ob : OrderBook) : list Match :=
  loop_matches current_tick (length (bids ob) + length (asks ob))
               (mkMatchState (sorted_book ob) 0 0 []).

Definition Zsum (l : list Z) : Z := foldr Z.add 0 l.

(** An order without its volume, the one field matching writes. *)
Definition erase_volume (o : Order) : Order := set_volume o 0.

(** Iterations the loop can still make: elements at or after the cursors. *)
Definition remaining (s : MatchState) : nat :=
  (length (bids (ms_book s)) - ms_bi s) + (length (asks (ms_book s)) - ms_ai s).



(** Within the matches [ms], position [i] of a sorted vector (read off a
    match by [cursor]) is served before position [j]: whenever [j] is
    matched, [i] has been matched before, and is never matched again. *)
Definition served_before (ms : list Match) (cursor : Match -> nat) (i j : nat) : Prop :=
  forall n m, ms !! n = Some m -> cursor m = j ->
    (exists n' m', (n' < n)%nat /\ ms !! n' = Some m' /\ cursor m' = i) /\
    (forall n' m', ms !! n' = Some m' -> cursor m' = i -> (n' < n)%nat).

(** The three submissions of scenario B and the two of scenario A, by any
    agents, with any incoming [order_id]. *)
Definition scenario_A_calls (buyer seller id1 id2 : Z) : list Call :=
  [Submit (mkOrder buyer 0 101 10 true 0 id1);
   Submit (mkOrder seller 0 99 10 false 1 id2)].

Definition scenario_B_calls (buyer1 buyer2 seller id1 id2 id3 : Z) : list Call :=
  [Submit (mkOrder buyer1 0 100 5 true 0 id1);
   Submit (mkOrder buyer2 0 100 5 true 1 id2);
   Submit (mkOrder seller 0 100 7 false 2 id3)].

(** The arithmetic mean of a sequence: its sum over its length. *)
Definition arithmetic_mean (l : list Q) : Q :=
  (foldr Qplus 0 l / inject_Z (Z.of_nat (length l)))%Q.

(** A double that holds the arithmetic mean of the values of [xs], and one
    that holds the arithmetic midpoint of two prices. *)
Definition exact_mean (r : float) (xs : list float) : Prop :=
  exists v vs,
    double_value r = Some v /\ double_values xs = Some vs /\
    (v == arithmetic_mean vs)%Q.

Definition exact_midpoint (r bid_price ask_price : float) : Prop :=
  exists v vb va,
    double_value r = Some v /\
    double_value bid_price = Some vb /\ double_value ask_price = Some va /\
    (v == (vb + va) / 2)%Q.

(** An exchange whose queue has lost the orders that name no instrument. *)
Definition drop_unroutable (e : Exchange) : Exchange :=
  mkExchange (rank e) (num_instruments e) (order_books e)
             (filter (fun o => valid_instrument (order_books e) (instrument_id o) = true)
                     (pending_orders e))
             (trade_log e) (next_order_id e).

(** The orders of the queue that name instrument [i], put into [ob] in
    queue order. *)
Definition add_orders_for (i : nat) (pending : list Order) (ob : OrderBook) : OrderBook :=
  foldl (fun ob o => add_order o ob) ob
        (filter (fun o => instrument_id o = Z.of_nat i) pending).

(** The book of scenario A after its matching pass. *)
Definition scenario_A_book : OrderBook :=
  (match_orders 1 (add_order (mkOrder 2 0 99 10 false 1 2)
                             (add_order (mkOrder 1 0 101 10 true 0 1) OrderBook_new))).2.

(** The orders resting in the books of an exchange. *)
Definition resting (e : Exchange) : list Order :=
  mjoin ((fun ob => bids ob ++ asks ob) <$> order_books e).

(** The orders an exchange holds: queued or resting. *)
Definition live (e : Exchange) : list Order := pending_orders e ++ resting e.

(** A volume an [int] can hold that is positive. *)
Definition positive_volume (o : Order) : Prop := 0 < volume o <= INT_MAX.

Definition book_positive (ob : OrderBook) : Prop :=
  Forall positive_volume (bids ob) /\ Forall positive_volume (asks ob).

(** The trade the loop body records for a match (with the price of
    [match_step]). *)
Definition match_trade (tick : Z) (m : Match) : Trade :=
  mkTrade (agent_id (m_bid m)) (agent_id (m_ask m)) (instrument_id (m_bid m))
          ((price (m_bid m) + price (m_ask m)) * (1 # 2))%Q
          (Z.min (volume (m_bid m)) (volume (m_ask m)))
          tick.






(** An order, a book, an exchange and a match without their order ids
    (for an exchange, without the state of the id counter either). *)
Definition forget_id (o : Order) : Order := set_order_id o 0.

Definition forget_ids_book (ob : OrderBook) : OrderBook :=
  mkOrderBook (forget_id <$> bids ob) (forget_id <$> asks ob)
              (last_price ob) (price_history ob).

Definition forget_ids (e : Exchange) : Exchange :=
  mkExchange (rank e) (num_instruments e) (forget_ids_book <$> order_books e)
             (forget_id <$> pending_orders e) (trade_log e) 0.

Definition forget_ids_match (m : Match) : Match :=
  mkMatch (m_bi m) (m_ai m) (forget_id (m_bid m)) (forget_id (m_ask m)).

Definition forget_ids_state (s : MatchState) : MatchState :=
  mkMatchState (forget_ids_book (ms_book s)) (ms_bi s) (ms_ai s) (ms_trades s).

(** The matches of a [process_orders] call, book by book, and of a run
    made of the calls [step], call by call. *)
Definition process_matches (tick : Z) (e : Exchange) : list Match :=
  mjoin (match_orders_matches tick <$> route_pending (order_books e) (pending_orders e)).




(** What a trade takes from its match: the parties, the instrument and
    the lesser of the two remaining volumes. *)
Definition trade_of_match (m : Match) (t : Trade) : Prop :=
  trade_volume t = Z.min (volume (m_bid m)) (volume (m_ask m)) /\
  buy_agent_id t = agent_id (m_bid m) /\
  sell_agent_id t = agent_id (m_ask m) /\
  trade_instrument_id t = instrument_id (m_bid m).






Definition book_orders (ob : OrderBook) : list Order := bids ob ++ asks ob.


(** The volume resting on one side of a book. *)
Definition total_volume (l : list Order) : Z := Zsum (volume <$> l).

(** A book that holds, as bids, buy orders for instrument [i] only, and as
    asks, sell orders for instrument [i] only. *)
Definition book_routed (i : nat) (ob : OrderBook) : Prop :=
  Forall (fun o => instrument_id o = Z.of_nat i /\ is_buy o = true) (bids ob) /\
  Forall (fun o => instrument_id o = Z.of_nat i /\ is_buy o = false) (asks ob).

(** ** Machine integers: facts *)

Lemma wrap_int_range z : int_range (wrap_int z).
Proof.
  unfold int_range, wrap_int, INT_MIN, INT_MAX.
  pose proof (Z.mod_pos_bound (z + 2147483648) 4294967296 eq_refl). lia.
Qed.

Lemma wrap_int_id z : int_range z -> wrap_int z = z.
Proof.
  unfold int_range, wrap_int, INT_MIN, INT_MAX. intros H.
  rewrite Z.mod_small by lia. lia.
Qed.

Lemma wrap_int_sub_diag z : wrap_int (z - z) = 0.
Proof. by rewrite Z.sub_diag. Qed.


(** ** Comparisons on prices *)

Lemma Qltb_lt x y : Qltb x y = true <-> (x < y)%Q.
Proof.
  unfold Qltb. rewrite negb_true_iff. split.
  - intros H. apply Qnot_le_lt. intros Hle. apply Qle_bool_iff in Hle. congruence.
  - intros H. destruct (Qle_bool y x) eqn:E; [|done].
    apply Qle_bool_iff in E. exfalso. by eapply Qlt_not_le.
Qed.

Lemma Qltb_ge x y : Qltb x y = false <-> (y <= x)%Q.
Proof.
  unfold Qltb. rewrite negb_false_iff. apply Qle_bool_iff.
Qed.

Lemma Qeq_bool_false x y : Qeq_bool x y = false <-> ~ (x == y)%Q.
Proof.
  split.
  - intros H Heq. apply Qeq_bool_iff in Heq. congruence.
  - intros H. destruct (Qeq_bool x y) eqn:E; [|done].
    apply Qeq_bool_iff in E. done.
Qed.

(** A bid that [bid_cmp] does not put first has no higher price. *)
Lemma bid_cmp_false_price a b : bid_cmp a b = false -> (price a <= price b)%Q.
Proof.
  unfold bid_cmp. destruct (Qeq_bool (price a) (price b)) eqn:E; simpl.
  - intros _. apply Qeq_bool_iff in E. rewrite E. apply Qle_refl.
  - intros H. by apply Qltb_ge in H.
Qed.

Lemma ask_cmp_false_price a b : ask_cmp a b = false -> (price b <= price a)%Q.
Proof.
  unfold ask_cmp. destruct (Qeq_bool (price a) (price b)) eqn:E; simpl.
  - intros _. apply Qeq_bool_iff in E. rewrite E. apply Qle_refl.
  - intros H. by apply Qltb_ge in H.
Qed.

Lemma bid_cmp_asym a b : bid_cmp a b = true -> bid_cmp b a = false.
Proof.
  unfold bid_cmp.
  destruct (Qeq_bool (price a) (price b)) eqn:E;
    destruct (Qeq_bool (price b) (price a)) eqn:E'; simpl.
  - rewrite Z.ltb_lt, Z.ltb_ge. lia.
  - apply Qeq_bool_iff in E. apply Qeq_bool_false in E'. by destruct E'.
  - apply Qeq_bool_iff in E'. apply Qeq_bool_false in E. by destruct E.
  - rewrite Qltb_lt, Qltb_ge. apply Qlt_le_weak.
Qed.

Lemma ask_cmp_asym a b : ask_cmp a b = true -> ask_cmp b a = false.
Proof.
  unfold ask_cmp.
  destruct (Qeq_bool (price a) (price b)) eqn:E;
    destruct (Qeq_bool (price b) (price a)) eqn:E'; simpl.
  - rewrite Z.ltb_lt, Z.ltb_ge. lia.
  - apply Qeq_bool_iff in E. apply Qeq_bool_false in E'. by destruct E'.
  - apply Qeq_bool_iff in E'. apply Qeq_bool_false in E. by destruct E.
  - rewrite Qltb_lt, Qltb_ge. apply Qlt_le_weak.
Qed.

Lemma bid_cmp_true a b :
  bid_cmp a b = true <->
  (price b < price a)%Q \/ ((price a == price b)%Q /\ timestamp a < timestamp b).
Proof.
  unfold bid_cmp. destruct (Qeq_bool (price a) (price b)) eqn:E; simpl.
  - apply Qeq_bool_iff in E. rewrite Z.ltb_lt. split; [tauto|].
    intros [H|[_ H]]; [lra|done].
  - apply Qeq_bool_false in E. rewrite Qltb_lt. split; [tauto|].
    intros [H|[H _]]; [done|tauto].
Qed.

Lemma ask_cmp_true a b :
  ask_cmp a b = true <->
  (price a < price b)%Q \/ ((price a == price b)%Q /\ timestamp a < timestamp b).
Proof.
  unfold ask_cmp. destruct (Qeq_bool (price a) (price b)) eqn:E; simpl.
  - apply Qeq_bool_iff in E. rewrite Z.ltb_lt. split; [tauto|].
    intros [H|[_ H]]; [lra|done].
  - apply Qeq_bool_false in E. rewrite Qltb_lt. split; [tauto|].
    intros [H|[H _]]; [done|tauto].
Qed.

Lemma bid_cmp_false a b :
  bid_cmp a b = false <->
  (price a < price b)%Q \/ ((price a == price b)%Q /\ timestamp b <= timestamp a).
Proof.
  rewrite <- not_true_iff_false, bid_cmp_true. split.
  - intros H. destruct (Qlt_le_dec (price a) (price b)) as [Hl|Hl]; [by left|].
    right. destruct (Z_lt_le_dec (timestamp a) (timestamp b)) as [Ht|Ht].
    + exfalso. apply H. destruct (Qeq_dec (price a) (price b)); [tauto|left; lra].
    + split; [|done]. destruct (Qeq_dec (price a) (price b)); [done|].
      exfalso. apply H. left. lra.
  - intros [H|[H Ht]] [H'|[H' Ht']]; try lra; lia.
Qed.

Lemma ask_cmp_false a b :
  ask_cmp a b = false <->
  (price b < price a)%Q \/ ((price a == price b)%Q /\ timestamp b <= timestamp a).
Proof.
  rewrite <- not_true_iff_false, ask_cmp_true. split.
  - intros H. destruct (Qlt_le_dec (price b) (price a)) as [Hl|Hl]; [by left|].
    right. destruct (Z_lt_le_dec (timestamp a) (timestamp b)) as [Ht|Ht].
    + exfalso. apply H. destruct (Qeq_dec (price a) (price b)); [tauto|left; lra].
    + split; [|done]. destruct (Qeq_dec (price a) (price b)); [done|].
      exfalso. apply H. left. lra.
  - intros [H|[H Ht]] [H'|[H' Ht']]; try lra; lia.
Qed.

Lemma bid_cmp_not_after_trans x y z :
  not_after bid_cmp x y -> not_after bid_cmp y z -> not_after bid_cmp x z.
Proof.
  unfold not_after. rewrite !bid_cmp_false.
  intros [H|[H Ht]] [H'|[H' Ht']].
  - left; lra.
  - left; lra.
  - left; lra.
  - right. split; [lra|lia].
Qed.

Lemma ask_cmp_not_after_trans x y z :
  not_after ask_cmp x y -> not_after ask_cmp y z -> not_after ask_cmp x z.
Proof.
  unfold not_after. rewrite !ask_cmp_false.
  intros [H|[H Ht]] [H'|[H' Ht']].
  - left; lra.
  - left; lra.
  - left; lra.
  - right. split; [lra|lia].
Qed.

(** ** [std::sort] *)

Section Sorting.
Variable cmp : Order -> Order -> bool.
Hypothesis cmp_asym : forall x y, cmp x y = true -> cmp y x = false.
Hypothesis cmp_trans :
  forall x y z, not_after cmp x y -> not_after cmp y z -> not_after cmp x z.

Lemma sort_insert_perm x l : sort_insert cmp x l ≡ₚ x :: l.
Proof.
  induction l as [|y l IH]; simpl; [done|].
  destruct (cmp y x); [|done].
  rewrite IH. apply Permutation_swap.
Qed.

Lemma std_sort_perm l : std_sort cmp l ≡ₚ l.
Proof.
  induction l as [|x l IH]; simpl; [done|].
  fold (std_sort cmp l). by rewrite sort_insert_perm, IH.
Qed.

Lemma std_sort_length l : length (std_sort cmp l) = length l.
Proof. by rewrite std_sort_perm. Qed.

Lemma sort_insert_sorted x l :
  StronglySorted (not_after cmp) l ->
  StronglySorted (not_after cmp) (sort_insert cmp x l).
Proof.
  induction 1 as [|y l Hs IH Hy]; simpl.
  - repeat constructor.
  - destruct (cmp y x) eqn:E.
    + constructor; [done|].
      rewrite sort_insert_perm. constructor; [|done].
      by apply cmp_asym.
    + constructor; [by constructor|].
      constructor; [done|].
      eapply Forall_impl; [exact Hy|].
      intros z Hz. by apply (cmp_trans x y z).
Qed.

Lemma std_sort_sorted l : StronglySorted (not_after cmp) (std_sort cmp l).
Proof.
  induction l as [|x l IH]; simpl; [constructor|].
  by apply sort_insert_sorted.
Qed.

(** In the sorted range, no later element is put first by [cmp]. *)
Lemma std_sort_lookup l i j x y :
  (i < j)%nat ->
  std_sort cmp l !! i = Some x -> std_sort cmp l !! j = Some y ->
  cmp y x = false.
Proof.
  intros Hij Hi Hj.
  pose proof (std_sort_sorted l) as Hs.
  revert i j Hij Hi Hj. induction Hs as [|z l' Hs IH Hz]; intros i j Hij Hi Hj.
  - done.
  - destruct i as [|i]; destruct j as [|j]; try lia; simpl in *.
    + injection Hi as ->. rewrite Forall_forall in Hz.
      apply Hz. by eapply list_elem_of_lookup_2.
    + eapply IH; [|done..]. lia.
Qed.
End Sorting.

(** ** The matching loop *)

Lemma match_step_Some tick s s' :
  match_step tick s = Some s' ->
  exists b a,
    bids (ms_book s) !! ms_bi s = Some b /\
    asks (ms_book s) !! ms_ai s = Some a /\
    (price a <= price b)%Q /\
    s' = mkMatchState
           (mkOrderBook
              (<[ms_bi s := set_volume b (wrap_int (volume b - Z.min (volume b) (volume a)))]>
                 (bids (ms_book s)))
              (<[ms_ai s := set_volume a (wrap_int (volume a - Z.min (volume b) (volume a)))]>
                 (asks (ms_book s)))
              ((price b + price a) * (1 # 2))%Q
              (price_history (ms_book s) ++ [((price b + price a) * (1 # 2))%Q]))
           (if wrap_int (volume b - Z.min (volume b) (volume a)) =? 0
            then S (ms_bi s) else ms_bi s)
           (if wrap_int (volume a - Z.min (volume b) (volume a)) =? 0
            then S (ms_ai s) else ms_ai s)
           (ms_trades s ++
              [mkTrade (agent_id b) (agent_id a) (instrument_id b)
                       ((price b + price a) * (1 # 2))%Q
                       (Z.min (volume b) (volume a)) tick]).
Proof.
  unfold match_step.
  destruct (bids (ms_book s) !! ms_bi s) as [b|] eqn:Hb; [|done].
  destruct (asks (ms_book s) !! ms_ai s) as [a|] eqn:Ha; [|done].
  destruct (Qltb (price b) (price a)) eqn:Hlt; [done|].
  intros [= <-]. exists b, a. repeat split; try done.
  by apply Qltb_ge.
Qed.

Lemma match_step_None tick s :
  match_step tick s = None ->
  (length (bids (ms_book s)) <= ms_bi s)%nat \/
  (length (asks (ms_book s)) <= ms_ai s)%nat \/
  exists b a,
    bids (ms_book s) !! ms_bi s = Some b /\
    asks (ms_book s) !! ms_ai s = Some a /\
    (price b < price a)%Q.
Proof.
  unfold match_step.
  destruct (bids (ms_book s) !! ms_bi s) as [b|] eqn:Hb.
  - destruct (asks (ms_book s) !! ms_ai s) as [a|] eqn:Ha.
    + destruct (Qltb (price b) (price a)) eqn:Hlt; [|done].
      intros _. right. right. exists b, a. repeat split; try done.
      by apply Qltb_lt.
    + intros _. right. left. by apply lookup_ge_None.
  - intros _. left. by apply lookup_ge_None.
Qed.

(** The body always moves a cursor: the lesser volume is used up. *)
Lemma match_step_remaining tick s s' :
  match_step tick s = Some s' -> (remaining s' < remaining s)%nat.
Proof.
  intros (b & a & Hb & Ha & _ & ->)%match_step_Some.
  unfold remaining; simpl. rewrite !length_insert.
  apply lookup_lt_Some in Hb, Ha.
  destruct (Z.min_spec (volume b) (volume a)) as [[_ ->]|[_ ->]].
  - rewrite wrap_int_sub_diag; simpl.
    destruct (wrap_int (volume a - volume b) =? 0); lia.
  - rewrite wrap_int_sub_diag; simpl.
    destruct (wrap_int (volume b - volume a) =? 0); lia.
Qed.

Lemma match_loop_exits tick fuel s :
  (remaining s <= fuel)%nat -> match_step tick (match_loop tick fuel s) = None.
Proof.
  revert s. induction fuel as [|fuel IH]; intros s Hf; simpl.
  - destruct (match_step tick s) as [s'|] eqn:E; [|done].
    apply match_step_remaining in E. lia.
  - destruct (match_step tick s) as [s'|] eqn:E; [|done].
    apply IH. apply match_step_remaining in E. lia.
Qed.

(** More fuel than [remaining] changes nothing. *)
Lemma match_loop_fuel tick fuel fuel' s :
  (remaining s <= fuel)%nat -> (remaining s <= fuel')%nat ->
  match_loop tick fuel s = match_loop tick fuel' s.
Proof.
  revert fuel' s. induction fuel as [|fuel IH]; intros fuel' s Hf Hf'.
  - destruct fuel'; simpl; [done|].
    destruct (match_step tick s) as [s'|] eqn:E; [|done].
    apply match_step_remaining in E. lia.
  - destruct fuel'; simpl.
    + destruct (match_step tick s) as [s'|] eqn:E; [|done].
      apply match_step_remaining in E. lia.
    + destruct (match_step tick s) as [s'|] eqn:E; [|done].
      apply IH; apply match_step_remaining in E; lia.
Qed.

(** A property the body preserves holds when the loop is left. *)
Lemma match_loop_invariant (P : MatchState -> Prop) tick :
  (forall s s', P s -> match_step tick s = Some s' -> P s') ->
  forall fuel s, P s -> P (match_loop tick fuel s).
Proof.
  intros Hstep fuel. induction fuel as [|fuel IH]; intros s Hs; simpl; [done|].
  destruct (match_step tick s) as [s'|] eqn:E; [|done].
  eapply IH, Hstep; done.
Qed.

Lemma erase_volume_set_volume o v : erase_volume (set_volume o v) = erase_volume o.
Proof. done. Qed.

Lemma erase_volume_insert (l : list Order) i o v :
  l !! i = Some o ->
  erase_volume <$> <[i := set_volume o v]> l = erase_volume <$> l.
Proof.
  intros H. rewrite list_fmap_insert, erase_volume_set_volume.
  apply list_insert_id. by rewrite list_lookup_fmap, H.
Qed.

(** The body writes volumes only. *)
Lemma match_step_erase tick s s' :
  match_step tick s = Some s' ->
  erase_volume <$> bids (ms_book s') = erase_volume <$> bids (ms_book s) /\
  erase_volume <$> asks (ms_book s') = erase_volume <$> asks (ms_book s).
Proof.
  intros (b & a & Hb & Ha & _ & ->)%match_step_Some; simpl.
  split; by apply erase_volume_insert.
Qed.

Lemma match_loop_erase tick fuel s :
  erase_volume <$> bids (ms_book (match_loop tick fuel s)) = erase_volume <$> bids (ms_book s) /\
  erase_volume <$> asks (ms_book (match_loop tick fuel s)) = erase_volume <$> asks (ms_book s).
Proof.
  apply (match_loop_invariant
           (fun s' => erase_volume <$> bids (ms_book s') = erase_volume <$> bids (ms_book s) /\
                      erase_volume <$> asks (ms_book s') = erase_volume <$> asks (ms_book s)) tick);
    [|done].
  intros s1 s2 [Hb Ha] [Hb' Ha']%match_step_erase. split; congruence.
Qed.

Lemma erase_volume_lookup (l l' : list Order) i o :
  erase_volume <$> l = erase_volume <$> l' -> l !! i = Some o ->
  exists o', l' !! i = Some o' /\ erase_volume o' = erase_volume o.
Proof.
  intros Heq Hi.
  assert ((erase_volume <$> l') !! i = Some (erase_volume o)) as H.
  { by rewrite <- Heq, list_lookup_fmap, Hi. }
  rewrite list_lookup_fmap in H.
  destruct (l' !! i) as [o'|]; [|done].
  exists o'. split; [done|]. change (Some (erase_volume o') = Some (erase_volume o)) in H.
  congruence.
Qed.

Lemma erase_volume_price o o' : erase_volume o = erase_volume o' -> price o = price o'.
Proof. by intros [=]. Qed.

Lemma match_orders_unfold tick ob :
  match_orders tick ob =
  let s := match_loop tick (length (bids ob) + length (asks ob))
                      (mkMatchState (sorted_book ob) 0 0 []) in
  (ms_trades s,
   mkOrderBook (drop (ms_bi s) (bids (ms_book s))) (drop (ms_ai s) (asks (ms_book s)))
               (last_price (ms_book s)) (price_history (ms_book s))).
Proof. done. Qed.

Lemma sorted_book_remaining ob :
  remaining (mkMatchState (sorted_book ob) 0 0 []) =
  (length (bids ob) + length (asks ob))%nat.
Proof.
  unfold remaining; simpl.
  rewrite (std_sort_length bid_cmp), (std_sort_length ask_cmp). lia.
Qed.

(** [match_orders] runs its loop to the end. *)
Lemma match_orders_exits tick ob :
  match_step tick (match_loop tick (length (bids ob) + length (asks ob))
                              (mkMatchState (sorted_book ob) 0 0 [])) = None.
Proof. apply match_loop_exits. by rewrite sorted_book_remaining. Qed.

(** ** No crossed book after a matching pass *)

(** Behind the bid cursor no bid is priced above the one under it. *)
Lemma sorted_bids_after tick ob i j b b' :
  let s := match_loop tick (length (bids ob) + length (asks ob))
                      (mkMatchState (sorted_book ob) 0 0 []) in
  (i <= j)%nat ->
  bids (ms_book s) !! i = Some b -> bids (ms_book s) !! j = Some b' ->
  (price b' <= price b)%Q.
Proof.
  intros s Hij Hi Hj.
  destruct (decide (i = j)) as [->|Hne].
  { rewrite Hi in Hj. injection Hj as ->. apply Qle_refl. }
  destruct (match_loop_erase tick (length (bids ob) + length (asks ob))
                             (mkMatchState (sorted_book ob) 0 0 [])) as [He _].
  fold s in He. simpl in He.
  destruct (erase_volume_lookup _ _ _ _ He Hi) as (o & Ho & Eo).
  destruct (erase_volume_lookup _ _ _ _ He Hj) as (o' & Ho' & Eo').
  rewrite <- (erase_volume_price _ _ Eo), <- (erase_volume_price _ _ Eo').
  apply bid_cmp_false_price.
  eapply (std_sort_lookup bid_cmp bid_cmp_asym bid_cmp_not_after_trans);
    [|exact Ho|exact Ho']. lia.
Qed.

Lemma sorted_asks_after tick ob i j a a' :
  let s := match_loop tick (length (bids ob) + length (asks ob))
                      (mkMatchState (sorted_book ob) 0 0 []) in
  (i <= j)%nat ->
  asks (ms_book s) !! i = Some a -> asks (ms_book s) !! j = Some a' ->
  (price a <= price a')%Q.
Proof.
  intros s Hij Hi Hj.
  destruct (decide (i = j)) as [->|Hne].
  { rewrite Hi in Hj. injection Hj as ->. apply Qle_refl. }
  destruct (match_loop_erase tick (length (bids ob) + length (asks ob))
                             (mkMatchState (sorted_book ob) 0 0 [])) as [_ He].
  fold s in He. simpl in He.
  destruct (erase_volume_lookup _ _ _ _ He Hi) as (o & Ho & Eo).
  destruct (erase_volume_lookup _ _ _ _ He Hj) as (o' & Ho' & Eo').
  rewrite <- (erase_volume_price _ _ Eo), <- (erase_volume_price _ _ Eo').
  apply ask_cmp_false_price.
  eapply (std_sort_lookup ask_cmp ask_cmp_asym ask_cmp_not_after_trans);
    [|exact Ho|exact Ho']. lia.
Qed.

(** C1. After [match_orders] returns, every remaining bid is priced strictly
    below every remaining ask: the bids are empty, or the asks are empty, or
    the highest remaining bid price is below the lowest remaining ask
    price. *)
Theorem match_orders_no_cross (tick : Z) (ob : OrderBook) (b a : Order) :
  b ∈ bids (snd (match_orders tick ob)) ->
  a ∈ asks (snd (match_orders tick ob)) ->
  (price b < price a)%Q.
Proof.
  rewrite match_orders_unfold. simpl.
  set (s := match_loop tick _ _).
  intros (i & Hi)%list_elem_of_lookup_1 (j & Hj)%list_elem_of_lookup_1.
  rewrite lookup_drop in Hi, Hj.
  pose proof (match_orders_exits tick ob) as Hexit. fold s in Hexit.
  apply match_step_None in Hexit as [Hlen|[Hlen|(b0 & a0 & Hb0 & Ha0 & Hlt)]].
  - apply lookup_lt_Some in Hi. lia.
  - apply lookup_lt_Some in Hj. lia.
  - pose proof (sorted_bids_after tick ob (ms_bi s) (ms_bi s + i) b0 b) as Hb.
    pose proof (sorted_asks_after tick ob (ms_ai s) (ms_ai s + j) a0 a) as Ha.
    simpl in Hb, Ha. fold s in Hb, Ha.
    specialize (Hb ltac:(lia) Hb0 Hi). specialize (Ha ltac:(lia) Ha0 Hj).
    lra.
Qed.

Lemma match_orders_no_cross_witness :
  (price (mkOrder 1 0 99 5 true 0 1) < price (mkOrder 2 0 101 5 false 0 2))%Q.
Proof.
  apply (match_orders_no_cross 0
           (mkOrderBook [mkOrder 1 0 99 5 true 0 1] [mkOrder 2 0 101 5 false 0 2]
                        100 [100%Q])).
  - vm_compute. apply list_elem_of_here.
  - vm_compute. apply list_elem_of_here.
Defined.

(** ** The order in which the loop serves the book *)

Lemma loop_matches_S tick fuel s s' :
  match_step tick s = Some s' ->
  exists b a,
    bids (ms_book s) !! ms_bi s = Some b /\
    asks (ms_book s) !! ms_ai s = Some a /\
    loop_matches tick (S fuel) s =
      mkMatch (ms_bi s) (ms_ai s) b a :: loop_matches tick fuel s'.
Proof.
  intros Hs. destruct (match_step_Some _ _ _ Hs) as (b & a & Hb & Ha & _ & _).
  exists b, a. repeat split; try done. simpl. by rewrite Hs, Hb, Ha.
Qed.

Lemma match_step_cursors tick s s' :
  match_step tick s = Some s' ->
  (ms_bi s <= ms_bi s' <= S (ms_bi s))%nat /\ (ms_ai s <= ms_ai s' <= S (ms_ai s))%nat.
Proof.
  intros (b & a & _ & _ & _ & ->)%match_step_Some; simpl.
  destruct (_ =? 0); destruct (_ =? 0); lia.
Qed.

(** The cursors never move back. *)
Lemma loop_matches_monotone tick fuel s n n' m m' :
  (n <= n')%nat ->
  loop_matches tick fuel s !! n = Some m ->
  loop_matches tick fuel s !! n' = Some m' ->
  (ms_bi s <= m_bi m <= m_bi m')%nat /\ (ms_ai s <= m_ai m <= m_ai m')%nat.
Proof.
  revert s n n' m m'. induction fuel as [|fuel IH]; intros s n n' m m' Hn Hm Hm'; [done|].
  destruct (match_step tick s) as [s'|] eqn:Hs; [|by simpl in Hm; rewrite Hs in Hm].
  destruct (loop_matches_S tick fuel s s' Hs) as (b & a & Hb & Ha & Heq).
  rewrite Heq in Hm, Hm'. apply match_step_cursors in Hs.
  destruct n as [|n]; destruct n' as [|n']; simpl in *; try lia.
  - injection Hm as <-. injection Hm' as <-. simpl. lia.
  - injection Hm as <-. simpl.
    destruct (IH s' n' n' m' m' ltac:(lia) Hm' Hm'). lia.
  - destruct (IH s' n n' m m' ltac:(lia) Hm Hm'). lia.
Qed.

(** The cursors skip no position. *)
Lemma loop_matches_no_gap_bid tick fuel s n m i :
  loop_matches tick fuel s !! n = Some m ->
  (ms_bi s <= i < m_bi m)%nat ->
  exists n' m', (n' < n)%nat /\ loop_matches tick fuel s !! n' = Some m' /\ m_bi m' = i.
Proof.
  revert s n m. induction fuel as [|fuel IH]; intros s n m Hm Hi; [done|].
  destruct (match_step tick s) as [s'|] eqn:Hs; [|by simpl in Hm; rewrite Hs in Hm].
  destruct (loop_matches_S tick fuel s s' Hs) as (b & a & Hb & Ha & Heq).
  rewrite Heq in Hm |- *. apply match_step_cursors in Hs.
  destruct n as [|n]; simpl in Hm.
  - injection Hm as <-. simpl in Hi. lia.
  - destruct (decide (i = ms_bi s)) as [->|Hne].
    + exists 0%nat, (mkMatch (ms_bi s) (ms_ai s) b a). split; [lia|done].
    + destruct (IH s' n m Hm ltac:(lia)) as (n' & m' & Hlt & Hn' & Hc).
      exists (S n'), m'. split; [lia|done].
Qed.

Lemma loop_matches_no_gap_ask tick fuel s n m i :
  loop_matches tick fuel s !! n = Some m ->
  (ms_ai s <= i < m_ai m)%nat ->
  exists n' m', (n' < n)%nat /\ loop_matches tick fuel s !! n' = Some m' /\ m_ai m' = i.
Proof.
  revert s n m. induction fuel as [|fuel IH]; intros s n m Hm Hi; [done|].
  destruct (match_step tick s) as [s'|] eqn:Hs; [|by simpl in Hm; rewrite Hs in Hm].
  destruct (loop_matches_S tick fuel s s' Hs) as (b & a & Hb & Ha & Heq).
  rewrite Heq in Hm |- *. apply match_step_cursors in Hs.
  destruct n as [|n]; simpl in Hm.
  - injection Hm as <-. simpl in Hi. lia.
  - destruct (decide (i = ms_ai s)) as [->|Hne].
    + exists 0%nat, (mkMatch (ms_bi s) (ms_ai s) b a). split; [lia|done].
    + destruct (IH s' n m Hm ltac:(lia)) as (n' & m' & Hlt & Hn' & Hc).
      exists (S n'), m'. split; [lia|done].
Qed.

Lemma served_before_bid tick ob i j :
  (i < j)%nat -> served_before (match_orders_matches tick ob) m_bi i j.
Proof.
  intros Hij n m Hm Hc. unfold match_orders_matches in *. split.
  - eapply loop_matches_no_gap_bid; [done|]. simpl. lia.
  - intros n' m' Hm' Hc'.
    destruct (decide (n' < n)%nat) as [|Hge]; [done|].
    destruct (loop_matches_monotone _ _ _ n n' m m' ltac:(lia) Hm Hm'). lia.
Qed.

Lemma served_before_ask tick ob i j :
  (i < j)%nat -> served_before (match_orders_matches tick ob) m_ai i j.
Proof.
  intros Hij n m Hm Hc. unfold match_orders_matches in *. split.
  - eapply loop_matches_no_gap_ask; [done|]. simpl. lia.
  - intros n' m' Hm' Hc'.
    destruct (decide (n' < n)%nat) as [|Hge]; [done|].
    destruct (loop_matches_monotone _ _ _ n n' m m' ltac:(lia) Hm Hm'). lia.
Qed.

(** A match is between the orders at the cursors, whatever is left of
    their volumes. *)
Lemma loop_matches_orders tick fuel s n m :
  loop_matches tick fuel s !! n = Some m ->
  exists b a,
    bids (ms_book s) !! m_bi m = Some b /\ erase_volume (m_bid m) = erase_volume b /\
    asks (ms_book s) !! m_ai m = Some a /\ erase_volume (m_ask m) = erase_volume a.
Proof.
  revert s n m. induction fuel as [|fuel IH]; intros s n m Hm; [done|].
  destruct (match_step tick s) as [s'|] eqn:Hs; [|by simpl in Hm; rewrite Hs in Hm].
  destruct (loop_matches_S tick fuel s s' Hs) as (b & a & Hb & Ha & Heq).
  rewrite Heq in Hm. destruct n as [|n]; simpl in Hm.
  - injection Hm as <-. simpl. eauto 10.
  - destruct (IH s' n m Hm) as (b' & a' & Hb' & Eb' & Ha' & Ea').
    destruct (match_step_erase _ _ _ Hs) as [Heb Hea].
    destruct (erase_volume_lookup _ _ _ _ Heb Hb') as (b0 & Hb0 & Eb0).
    destruct (erase_volume_lookup _ _ _ _ Hea Ha') as (a0 & Ha0 & Ea0).
    exists b0, a0. repeat split; [done|congruence|done|congruence].
Qed.

(** Equal price, earlier tick: earlier in the sorted vector. *)
Lemma bid_priority l i j b1 b2 :
  std_sort bid_cmp l !! i = Some b1 -> std_sort bid_cmp l !! j = Some b2 ->
  (price b1 == price b2)%Q -> timestamp b1 < timestamp b2 -> (i < j)%nat.
Proof.
  intros Hi Hj Hp Ht.
  destruct (lt_eq_lt_dec i j) as [[Hlt | -> ] | Hlt]; [done|..].
  - rewrite Hi in Hj. injection Hj as ->. lia.
  - pose proof (std_sort_lookup bid_cmp bid_cmp_asym bid_cmp_not_after_trans
                                l j i b2 b1 Hlt Hj Hi) as H.
    apply bid_cmp_false in H as [H|[_ H]]; [lra|lia].
Qed.

Lemma ask_priority l i j a1 a2 :
  std_sort ask_cmp l !! i = Some a1 -> std_sort ask_cmp l !! j = Some a2 ->
  (price a1 == price a2)%Q -> timestamp a1 < timestamp a2 -> (i < j)%nat.
Proof.
  intros Hi Hj Hp Ht.
  destruct (lt_eq_lt_dec i j) as [[Hlt | -> ] | Hlt]; [done|..].
  - rewrite Hi in Hj. injection Hj as ->. lia.
  - pose proof (std_sort_lookup ask_cmp ask_cmp_asym ask_cmp_not_after_trans
                                l j i a2 a1 Hlt Hj Hi) as H.
    apply ask_cmp_false in H as [H|[_ H]]; [lra|lia].
Qed.

(** ** Price-time priority *)

(** C3. Among resting orders of equal price the one with the earlier
    submission tick stands earlier in the sorted vector and is served
    before the other (on either side), every match being between the
    orders at the cursors; and scenario B: buy 5@100 (tick 0), buy 5@100
    (tick 1), sell 7@100 (tick 2), then [process_orders], gives two trades,
    the first of volume 5 against the tick-0 buy, the second of volume 2
    against the tick-1 buy, which rests with volume 3, the sell being
    consumed. *)
Theorem price_time_priority :
  (forall tick ob b1 b2,
      b1 ∈ bids ob -> b2 ∈ bids ob ->
      (price b1 == price b2)%Q -> timestamp b1 < timestamp b2 ->
      exists i j,
        bids (sorted_book ob) !! i = Some b1 /\ bids (sorted_book ob) !! j = Some b2 /\
        (i < j)%nat /\ served_before (match_orders_matches tick ob) m_bi i j) /\
  (forall tick ob a1 a2,
      a1 ∈ asks ob -> a2 ∈ asks ob ->
      (price a1 == price a2)%Q -> timestamp a1 < timestamp a2 ->
      exists i j,
        asks (sorted_book ob) !! i = Some a1 /\ asks (sorted_book ob) !! j = Some a2 /\
        (i < j)%nat /\ served_before (match_orders_matches tick ob) m_ai i j) /\
  (forall tick ob n m,
      match_orders_matches tick ob !! n = Some m ->
      exists b a,
        bids (sorted_book ob) !! m_bi m = Some b /\ erase_volume (m_bid m) = erase_volume b /\
        asks (sorted_book ob) !! m_ai m = Some a /\ erase_volume (m_ask m) = erase_volume a) /\
  (forall rank_ tick buyer1 buyer2 seller id1 id2 id3,
      exists e0 book,
        Exchange_new rank_ 1 = Some e0 /\
        route_pending (order_books e0)
          (pending_orders (run (scenario_B_calls buyer1 buyer2 seller id1 id2 id3) e0))
          = [book] /\
        match_orders_matches tick book =
          [mkMatch 0 0 (mkOrder buyer1 0 100 5 true 0 1) (mkOrder seller 0 100 7 false 2 3);
           mkMatch 1 0 (mkOrder buyer2 0 100 5 true 1 2) (mkOrder seller 0 100 2 false 2 3)] /\
        let r := process_orders tick
                   (run (scenario_B_calls buyer1 buyer2 seller id1 id2 id3) e0) in
        r.1 = 2 /\
        trade_volume <$> trade_log r.2 = [5; 2] /\
        buy_agent_id <$> trade_log r.2 = [buyer1; buyer2] /\
        sell_agent_id <$> trade_log r.2 = [seller; seller] /\
        Forall (fun t => (trade_price t == 100)%Q) (trade_log r.2) /\
        bids <$> order_books r.2 = [[mkOrder buyer2 0 100 3 true 1 2]] /\
        asks <$> order_books r.2 = [[]]).
Proof.
  split; [|split; [|split]].
  - intros tick ob b1 b2 H1 H2 Hp Ht.
    rewrite <- (std_sort_perm bid_cmp) in H1, H2.
    apply list_elem_of_lookup_1 in H1 as [i Hi], H2 as [j Hj].
    pose proof (bid_priority _ _ _ _ _ Hi Hj Hp Ht) as Hij.
    exists i, j. split; [done|]. split; [done|]. split; [done|].
    by apply served_before_bid.
  - intros tick ob a1 a2 H1 H2 Hp Ht.
    rewrite <- (std_sort_perm ask_cmp) in H1, H2.
    apply list_elem_of_lookup_1 in H1 as [i Hi], H2 as [j Hj].
    pose proof (ask_priority _ _ _ _ _ Hi Hj Hp Ht) as Hij.
    exists i, j. split; [done|]. split; [done|]. split; [done|].
    by apply served_before_ask.
  - intros tick ob n m Hm. by apply loop_matches_orders in Hm.
  - intros. eexists _, _. split; [reflexivity|]. split; [reflexivity|].
    split; [reflexivity|]. simpl.
    repeat split; try reflexivity.
    repeat constructor.
Qed.

Lemma price_time_priority_witness :
  exists i j,
    bids (sorted_book (mkOrderBook [mkOrder 2 0 100 5 true 1 2; mkOrder 1 0 100 5 true 0 1]
                                   [mkOrder 3 0 100 7 false 2 3] 100 [100%Q])) !! i
      = Some (mkOrder 1 0 100 5 true 0 1) /\
    bids (sorted_book (mkOrderBook [mkOrder 2 0 100 5 true 1 2; mkOrder 1 0 100 5 true 0 1]
                                   [mkOrder 3 0 100 7 false 2 3] 100 [100%Q])) !! j
      = Some (mkOrder 2 0 100 5 true 1 2) /\
    (i < j)%nat /\
    served_before
      (match_orders_matches 2
         (mkOrderBook [mkOrder 2 0 100 5 true 1 2; mkOrder 1 0 100 5 true 0 1]
                      [mkOrder 3 0 100 7 false 2 3] 100 [100%Q])) m_bi i j.
Proof.
  apply (proj1 price_time_priority 2
           (mkOrderBook [mkOrder 2 0 100 5 true 1 2; mkOrder 1 0 100 5 true 0 1]
                        [mkOrder 3 0 100 7 false 2 3] 100 [100%Q])
           (mkOrder 1 0 100 5 true 0 1) (mkOrder 2 0 100 5 true 1 2)).
  - simpl. apply list_elem_of_further, list_elem_of_here.
  - simpl. apply list_elem_of_here.
  - reflexivity.
  - simpl. lia.
Defined.

(** ** Scenario A *)

(** C5. On a fresh one-instrument exchange, buy 10@101 (tick 0) and sell
    10@99 (tick 1) followed by [process_orders] give exactly one trade, of
    volume 10 at price 100 (the midpoint of 101 and 99), and leave both
    sides of the book empty. *)
Theorem scenario_A (rank_ tick buyer seller id1 id2 : Z) :
  exists e0 t,
    Exchange_new rank_ 1 = Some e0 /\
    let r := process_orders tick (run (scenario_A_calls buyer seller id1 id2) e0) in
    r.1 = 1 /\
    trade_log r.2 = [t] /\
    trade_volume t = 10 /\
    (trade_price t == 100)%Q /\
    (trade_price t == (101 + 99) / 2)%Q /\
    buy_agent_id t = buyer /\ sell_agent_id t = seller /\
    bids <$> order_books r.2 = [[]] /\
    asks <$> order_books r.2 = [[]].
Proof.
  eexists _, _. split; [reflexivity|]. simpl.
  repeat split; reflexivity.
Qed.

(** ** Price history *)

Lemma match_step_history tick s s' :
  match_step tick s = Some s' ->
  exists t,
    ms_trades s' = ms_trades s ++ [t] /\
    price_history (ms_book s') = price_history (ms_book s) ++ [trade_price t] /\
    last_price (ms_book s') = trade_price t.
Proof.
  intros (b & a & _ & _ & _ & ->)%match_step_Some; simpl. eauto.
Qed.

Lemma match_loop_history tick fuel s :
  exists ts,
    ms_trades (match_loop tick fuel s) = ms_trades s ++ ts /\
    price_history (ms_book (match_loop tick fuel s)) =
      price_history (ms_book s) ++ (trade_price <$> ts).
Proof.
  apply (match_loop_invariant
           (fun s' => exists ts,
                ms_trades s' = ms_trades s ++ ts /\
                price_history (ms_book s') = price_history (ms_book s) ++ (trade_price <$> ts))
           tick).
  - intros s1 s2 (ts & Ht & Hh) (t & Ht' & Hh' & _)%match_step_history.
    exists (ts ++ [t]). rewrite Ht', Hh', Ht, Hh, fmap_app. simpl.
    by rewrite <- !app_assoc.
  - exists []. simpl. by rewrite !app_nil_r.
Qed.

(** One history entry per trade of the pass, in order. *)
Lemma match_orders_history tick ob :
  price_history (match_orders tick ob).2 =
  price_history ob ++ (trade_price <$> (match_orders tick ob).1).
Proof.
  rewrite match_orders_unfold. simpl.
  destruct (match_loop_history tick (length (bids ob) + length (asks ob))
                               (mkMatchState (sorted_book ob) 0 0 [])) as (ts & Ht & Hh).
  simpl in Ht, Hh. by rewrite Hh, Ht.
Qed.

Lemma add_order_history o ob : price_history (add_order o ob) = price_history ob.
Proof. unfold add_order. by destruct (is_buy o). Qed.

Lemma book_reachable_seeded ob :
  book_reachable ob -> exists rest, price_history ob = 100%Q :: rest.
Proof.
  induction 1 as [|o ob _ [rest IH]|tick ob _ [rest IH]].
  - by exists [].
  - exists rest. by rewrite add_order_history.
  - eexists. rewrite match_orders_history, IH. simpl. done.
Qed.

(** The history of prices is seeded in double arithmetic as well. *)
Lemma prices_reachable_seeded p :
  prices_reachable p -> exists rest, bp_price_history p = 100%float :: rest.
Proof.
  induction 1 as [|bid_price ask_price p _ [rest IH]].
  - by exists [].
  - eexists. simpl. rewrite IH. simpl. done.
Qed.

(** C7, as amended. In every state an order book reaches from its
    construction the price history starts with the seed 100 (so it is
    never empty) and a matching pass appends one entry per trade, the
    price of that trade.  So [get_historical_average] never falls back on
    [last_price]: on the doubles the book holds it returns the sum of the
    whole history, seed included, accumulated from 0.0 from left to right,
    divided by the number of entries, each operation rounded to a
    double. *)
Theorem price_history_seeded_average (ob : OrderBook) (p : BookPrices) :
  book_reachable ob ->
  prices_reachable p ->
  ((exists rest, price_history ob = 100%Q :: rest) /\
   (forall tick,
       price_history (match_orders tick ob).2 =
       price_history ob ++ (trade_price <$> (match_orders tick ob).1))) /\
  ((exists rest, bp_price_history p = 100%float :: rest) /\
   (forall bid_price ask_price,
       bp_price_history (record_trade bid_price ask_price p) =
       bp_price_history p ++ [trade_price_double bid_price ask_price] /\
       bp_last_price (record_trade bid_price ask_price p) =
       trade_price_double bid_price ask_price) /\
   get_historical_average_double p =
   (foldl PrimFloat.add 0%float (bp_price_history p)
    / double_of_size (length (bp_price_history p)))%float).
Proof.
  intros [rest Hrest]%book_reachable_seeded [rest' Hrest']%prices_reachable_seeded.
  split; [split|split; [|split]].
  - by exists rest.
  - intros tick. apply match_orders_history.
  - by exists rest'.
  - done.
  - unfold get_historical_average_double. by rewrite Hrest'.
Qed.

Lemma price_history_seeded_average_witness :
  ((exists rest, price_history scenario_A_book = 100%Q :: rest) /\
   (forall tick,
       price_history (match_orders tick scenario_A_book).2 =
       price_history scenario_A_book ++
       (trade_price <$> (match_orders tick scenario_A_book).1))) /\
  ((exists rest, bp_price_history (record_trade 101 99 BookPrices_new) = 100%float :: rest) /\
   (forall bid_price ask_price,
       bp_price_history (record_trade bid_price ask_price (record_trade 101 99 BookPrices_new)) =
       bp_price_history (record_trade 101 99 BookPrices_new)
         ++ [trade_price_double bid_price ask_price] /\
       bp_last_price (record_trade bid_price ask_price (record_trade 101 99 BookPrices_new)) =
       trade_price_double bid_price ask_price) /\
   get_historical_average_double (record_trade 101 99 BookPrices_new) =
   (foldl PrimFloat.add 0%float (bp_price_history (record_trade 101 99 BookPrices_new))
    / double_of_size (length (bp_price_history (record_trade 101 99 BookPrices_new))))%float).
Proof.
  apply (price_history_seeded_average scenario_A_book (record_trade 101 99 BookPrices_new)).
  - apply book_reachable_match, book_reachable_add, book_reachable_add, book_reachable_new.
  - apply prices_reachable_trade, prices_reachable_new.
Defined.

(** C7, as stated, fails: the average is computed in double arithmetic.
    After one trade between a bid and an ask both priced at the double
    nearest to 0.1, which is priced at that double, the history is 100
    followed by that double; [get_historical_average] returns the double
    nearest to 50.05, which is not the arithmetic mean of the two
    entries. *)
Lemma historical_average_rounding_counterexample :
  let x := 0x1.999999999999ap-4%float in
  let p := record_trade x x BookPrices_new in
  prices_reachable p /\
  bp_price_history p = [100%float; x] /\
  get_historical_average_double p = 0x1.9066666666666p+5%float /\
  ~ exact_mean (get_historical_average_double p) (bp_price_history p).
Proof.
  intros x p. split; [apply prices_reachable_trade, prices_reachable_new|].
  split; [reflexivity|]. split; [reflexivity|].
  intros (v & vs & Hv & Hvs & Hmean).
  vm_compute in Hv. vm_compute in Hvs.
  injection Hv as <-. injection Hvs as <-.
  vm_compute in Hmean. discriminate.
Qed.


(** ** Queries on unknown instruments *)

(** C10. For an instrument id outside [0, number of books) both
    [get_price] and [get_historical_average] return 0.0 and hand the
    exchange back as it was. *)
Theorem query_out_of_range (e : Exchange) (i : Z) :
  ~ (0 <= i < Z.of_nat (length (order_books e))) ->
  get_price i e = (0%Q, e) /\
  Exchange_get_historical_average i e = (0%Q, e).
Proof.
  intros Hi. unfold get_price, Exchange_get_historical_average.
  assert (valid_instrument (order_books e) i = false) as ->; [|done].
  unfold valid_instrument. apply andb_false_iff.
  rewrite Z.leb_gt, Z.ltb_ge. lia.
Qed.

Lemma query_out_of_range_witness :
  get_price 3 (mkExchange 0 3 (replicate 3 OrderBook_new) [] [] 1)
    = (0%Q, mkExchange 0 3 (replicate 3 OrderBook_new) [] [] 1) /\
  Exchange_get_historical_average 3 (mkExchange 0 3 (replicate 3 OrderBook_new) [] [] 1)
    = (0%Q, mkExchange 0 3 (replicate 3 OrderBook_new) [] [] 1).
Proof.
  apply (query_out_of_range (mkExchange 0 3 (replicate 3 OrderBook_new) [] [] 1) 3).
  simpl. lia.
Defined.

(** ** Routing of the pending queue *)

Lemma route_order_length books o : length (route_order books o) = length books.
Proof.
  unfold route_order. destruct (valid_instrument books (instrument_id o)); [|done].
  apply length_alter.
Qed.

Lemma route_pending_length books pending :
  length (route_pending books pending) = length books.
Proof.
  revert books. induction pending as [|o pending IH]; intros books; simpl; [done|].
  by rewrite IH, route_order_length.
Qed.

Lemma valid_instrument_length books books' i :
  length books = length books' -> valid_instrument books i = valid_instrument books' i.
Proof. unfold valid_instrument. by intros ->. Qed.

Lemma valid_instrument_true books i :
  valid_instrument books i = true <-> 0 <= i < Z.of_nat (length books).
Proof. unfold valid_instrument. rewrite andb_true_iff, Z.leb_le, Z.ltb_lt. done. Qed.

(** Orders that name no instrument leave the books as they are. *)
Lemma route_pending_filter books0 books pending :
  length books = length books0 ->
  route_pending books pending =
  route_pending books
    (filter (fun o => valid_instrument books0 (instrument_id o) = true) pending).
Proof.
  revert books. induction pending as [|o pending IH]; intros books Hlen; [done|].
  rewrite filter_cons. simpl.
  destruct (decide (valid_instrument books0 (instrument_id o) = true)) as [Hv|Hv].
  - simpl. apply IH. by rewrite route_order_length.
  - rewrite <- IH by done. f_equal. unfold route_order.
    rewrite (valid_instrument_length books books0) by done.
    by destruct (valid_instrument books0 (instrument_id o)).
Qed.

Lemma route_order_lookup books o (i : nat) :
  route_order books o !! i =
  (if decide (instrument_id o = Z.of_nat i) then add_order o else id) <$> books !! i.
Proof.
  unfold route_order.
  destruct (valid_instrument books (instrument_id o)) eqn:Hv.
  - apply valid_instrument_true in Hv.
    destruct (decide (instrument_id o = Z.of_nat i)) as [Heq|Hne].
    + rewrite Heq, Nat2Z.id. apply list_lookup_alter_eq.
    + rewrite list_lookup_alter_ne by lia. by destruct (books !! i).
  - destruct (decide (instrument_id o = Z.of_nat i)) as [Heq|Hne].
    + rewrite lookup_ge_None_2; [done|].
      apply not_true_iff_false in Hv. rewrite valid_instrument_true in Hv. lia.
    + by destruct (books !! i).
Qed.

(** Every book receives the orders of the queue that name it, in queue
    order, and nothing else. *)
Lemma route_pending_lookup books pending (i : nat) :
  route_pending books pending !! i = add_orders_for i pending <$> books !! i.
Proof.
  revert books. induction pending as [|o pending IH]; intros books.
  - simpl. by destruct (books !! i).
  - simpl. rewrite IH, route_order_lookup. unfold add_orders_for.
    rewrite filter_cons.
    destruct (decide (instrument_id o = Z.of_nat i)); by destruct (books !! i).
Qed.

Lemma match_all_cons tick ob books total log :
  match_all tick (ob :: books) total log =
  let r := match_all tick books
             (wrap_int (total + wrap_int (Z.of_nat (length (match_orders tick ob).1))))
             (log ++ (match_orders tick ob).1) in
  ((match_orders tick ob).2 :: r.1.1, r.1.2, r.2).
Proof.
  cbn [match_all]. destruct (match_orders tick ob) as [t ob']. cbn [fst snd].
  by destruct (match_all tick books _ _) as [[rest' total'] log'].
Qed.

Lemma match_all_books tick books total log :
  (match_all tick books total log).1.1 = (fun ob => (match_orders tick ob).2) <$> books.
Proof.
  revert total log. induction books as [|ob books IH]; intros total log; [done|].
  rewrite match_all_cons. cbn [fst snd fmap list_fmap]. by rewrite IH.
Qed.

Lemma match_all_log tick books total log :
  (match_all tick books total log).2 =
  log ++ mjoin ((fun ob => (match_orders tick ob).1) <$> books).
Proof.
  revert total log. induction books as [|ob books IH]; intros total log.
  - simpl. by rewrite app_nil_r.
  - rewrite match_all_cons. cbn [fst snd fmap list_fmap mjoin list_join].
    by rewrite IH, app_assoc.
Qed.

Lemma process_orders_books tick e :
  order_books (process_orders tick e).2 =
  (fun ob => (match_orders tick ob).2) <$> route_pending (order_books e) (pending_orders e).
Proof.
  unfold process_orders.
  pose proof (match_all_books tick (route_pending (order_books e) (pending_orders e))
                              0 (trade_log e)) as H.
  destruct (match_all tick _ 0 (trade_log e)) as [[books' total] log']. done.
Qed.

Lemma process_orders_log tick e :
  trade_log (process_orders tick e).2 =
  trade_log e ++
  mjoin ((fun ob => (match_orders tick ob).1) <$>
           route_pending (order_books e) (pending_orders e)).
Proof.
  unfold process_orders.
  pose proof (match_all_log tick (route_pending (order_books e) (pending_orders e))
                            0 (trade_log e)) as H.
  destruct (match_all tick _ 0 (trade_log e)) as [[books' total] log']. done.
Qed.

Lemma process_orders_pending tick e : pending_orders (process_orders tick e).2 = [].
Proof.
  unfold process_orders.
  by destruct (match_all tick _ 0 (trade_log e)) as [[books' total] log'].
Qed.

Lemma process_orders_next_id tick e :
  next_order_id (process_orders tick e).2 = next_order_id e.
Proof.
  unfold process_orders.
  by destruct (match_all tick _ 0 (trade_log e)) as [[books' total] log'].
Qed.

(** C6. [process_orders] behaves as if the orders whose instrument id is
    outside [0, number of books) had never been queued: count, books, log
    and queue come out the same as without them; the queue is left empty;
    every book receives exactly the queued orders that name it, in queue
    order, and is then matched. *)
Theorem unroutable_orders_dropped (tick : Z) (e : Exchange) :
  process_orders tick e = process_orders tick (drop_unroutable e) /\
  pending_orders (process_orders tick e).2 = [] /\
  order_books (process_orders tick e).2 =
    (fun ob => (match_orders tick ob).2) <$>
      route_pending (order_books e) (pending_orders e) /\
  (forall (i : nat) ob,
      order_books e !! i = Some ob ->
      route_pending (order_books e) (pending_orders e) !! i =
        Some (add_orders_for i (pending_orders e) ob)).
Proof.
  split; [|split; [|split]].
  - unfold process_orders, drop_unroutable; simpl.
    by rewrite <- (route_pending_filter (order_books e)).
  - apply process_orders_pending.
  - apply process_orders_books.
  - intros i ob Hi. by rewrite route_pending_lookup, Hi.
Qed.

Lemma unroutable_orders_dropped_witness :
  route_pending (replicate 2 OrderBook_new)
                [mkOrder 1 5 100 1 true 0 1; mkOrder 2 1 100 1 true 0 2;
                 mkOrder 3 (-1) 100 1 false 0 3] !! 1%nat =
  Some (add_orders_for 1 [mkOrder 1 5 100 1 true 0 1; mkOrder 2 1 100 1 true 0 2;
                          mkOrder 3 (-1) 100 1 false 0 3] OrderBook_new).
Proof.
  apply (proj2 (proj2 (proj2 (unroutable_orders_dropped 0
           (mkExchange 0 2 (replicate 2 OrderBook_new)
                       [mkOrder 1 5 100 1 true 0 1; mkOrder 2 1 100 1 true 0 2;
                        mkOrder 3 (-1) 100 1 false 0 3] [] 4)))) 1%nat OrderBook_new).
  reflexivity.
Defined.

(** ** Order ids *)

Lemma StronglySorted_lookup_1 {A} (R : A -> A -> Prop) (l : list A) i j x y :
  StronglySorted R l -> (i < j)%nat -> l !! i = Some x -> l !! j = Some y -> R x y.
Proof.
  intros Hs. revert i j. induction Hs as [|z l' Hs IH Hz]; intros i j Hij Hi Hj; [done|].
  destruct i as [|i]; destruct j as [|j]; try lia; simpl in *.
  - injection Hi as ->. rewrite Forall_forall in Hz.
    apply Hz. by eapply list_elem_of_lookup_2.
  - eapply IH; [|done..]. lia.
Qed.

Lemma StronglySorted_lookup_2 {A} (R : A -> A -> Prop) (l : list A) :
  (forall i j x y, (i < j)%nat -> l !! i = Some x -> l !! j = Some y -> R x y) ->
  StronglySorted R l.
Proof.
  induction l as [|z l IH]; intros H; constructor.
  - apply IH. intros i j x y Hij Hi Hj. apply (H (S i) (S j)); [lia|done..].
  - apply Forall_forall. intros y [j Hj]%list_elem_of_lookup_1.
    apply (H 0%nat (S j)); [lia|done..].
Qed.

Lemma wrap_int_add_l x y : wrap_int (wrap_int x + y) = wrap_int (x + y).
Proof.
  unfold wrap_int. f_equal.
  replace ((x + 2147483648) mod 4294967296 - 2147483648 + y + 2147483648)
    with ((x + 2147483648) mod 4294967296 + y) by lia.
  replace (x + y + 2147483648) with ((x + 2147483648) + y) by lia.
  by rewrite Zplus_mod_idemp_l.
Qed.

Lemma call_next_order_id c e :
  next_order_id (call c e) =
  match c with
  | Submit _ => wrap_int (next_order_id e + 1)
  | Process _ => next_order_id e
  end.
Proof. destruct c; simpl; [done|]. apply process_orders_next_id. Qed.

Lemma assigned_ids_length cs e : length (assigned_ids cs e) = length (submitted cs).
Proof.
  revert e. induction cs as [|[o|tick] cs IH]; intros e; simpl; [done|..].
  - by rewrite IH.
  - apply IH.
Qed.

(** The [k]-th submitted order is given the counter's start plus [k],
    wrapped. *)
Lemma assigned_ids_lookup cs e k :
  int_range (next_order_id e) -> (k < length (submitted cs))%nat ->
  assigned_ids cs e !! k = Some (wrap_int (next_order_id e + Z.of_nat k)).
Proof.
  revert e k. induction cs as [|[o|tick] cs IH]; intros e k Hr Hk; simpl in *; [lia|..].
  - destruct k as [|k]; simpl.
    + by rewrite Z.add_0_r, wrap_int_id.
    + rewrite IH; [|apply wrap_int_range|lia]. simpl.
      rewrite wrap_int_add_l. do 2 f_equal. lia.
  - rewrite IH; [|by rewrite process_orders_next_id|done].
    by rewrite process_orders_next_id.
Qed.

Lemma Exchange_new_Some rank_ n e :
  Exchange_new rank_ n = Some e ->
  e = mkExchange rank_ n (replicate (Z.to_nat n) OrderBook_new) [] [] 1.
Proof. unfold Exchange_new. destruct (n <? 0); congruence. Qed.

(** While the counter has not wrapped the ids are 1, 2, 3, ... *)
Lemma assigned_ids_fresh cs rank_ n e :
  Exchange_new rank_ n = Some e ->
  Z.of_nat (length (submitted cs)) <= INT_MAX ->
  assigned_ids cs e = seqZ 1 (Z.of_nat (length (submitted cs))).
Proof.
  intros -> %Exchange_new_Some Hlen. apply list_eq. intros k.
  destruct (decide (k < length (submitted cs))%nat) as [Hk|Hk].
  - rewrite assigned_ids_lookup by (done || (simpl; unfold int_range, INT_MIN, INT_MAX; lia)).
    rewrite lookup_seqZ_lt by lia. simpl.
    rewrite wrap_int_id; [done|]. unfold int_range, INT_MIN, INT_MAX in *. lia.
  - rewrite lookup_ge_None_2 by (rewrite assigned_ids_length; lia).
    by rewrite lookup_seqZ_ge by lia.
Qed.

Lemma seqZ_increasing m n : StronglySorted Z.lt (seqZ m n).
Proof.
  apply StronglySorted_lookup_2. intros i j x y Hij Hi Hj.
  apply lookup_seqZ in Hi, Hj. lia.
Qed.

(** A run of submissions alone appends every order to the queue, with the
    id it was given. *)
Lemma submit_all_pending os e :
  pending_orders (run (Submit <$> os) e) =
  pending_orders e ++ zip_with set_order_id os (assigned_ids (Submit <$> os) e).
Proof.
  revert e. induction os as [|o os IH]; intros e.
  - simpl. by rewrite app_nil_r.
  - change (run (Submit <$> o :: os) e) with (run (Submit <$> os) (call (Submit o) e)).
    rewrite IH. simpl. by rewrite <- app_assoc.
Qed.

Lemma submitted_Submit os : submitted (Submit <$> os) = os.
Proof. unfold submitted. induction os as [|o os IH]; simpl; [done|]. f_equal. exact IH. Qed.

(** The counter takes 2^32 values before it comes back to one it has had. *)
Lemma wrap_int_inj x y :
  wrap_int x = wrap_int y -> - 4294967296 < x - y < 4294967296 -> x = y.
Proof.
  unfold wrap_int. intros H Hxy.
  pose proof (Z_div_mod_eq_full (x + 2147483648) 4294967296).
  pose proof (Z_div_mod_eq_full (y + 2147483648) 4294967296).
  lia.
Qed.

(** X23. On a newly constructed exchange the [k]-th submitted order
    (counting from 0) is given the id [1 + k] wrapped to 32 bits, whatever
    [process_orders] calls come in between.  So the ids are 1, 2, 3, ...,
    strictly increasing, as long as no more than 2^31 - 1 orders have been
    submitted, and pairwise distinct as long as no more than 2^32 have;
    and submissions alone put every order in the queue with its id. *)
Theorem order_ids_increasing (cs : list Call) (rank_ n : Z) (e : Exchange) :
  Exchange_new rank_ n = Some e ->
  (forall k, (k < length (submitted cs))%nat ->
     assigned_ids cs e !! k = Some (wrap_int (1 + Z.of_nat k))) /\
  (Z.of_nat (length (submitted cs)) <= INT_MAX ->
     assigned_ids cs e = seqZ 1 (Z.of_nat (length (submitted cs))) /\
     StronglySorted Z.lt (assigned_ids cs e)) /\
  (Z.of_nat (length (submitted cs)) <= 4294967296 -> NoDup (assigned_ids cs e)) /\
  (forall os, cs = Submit <$> os ->
     pending_orders (run cs e) = zip_with set_order_id os (assigned_ids cs e) /\
     order_id <$> pending_orders (run cs e) = assigned_ids cs e).
Proof.
  intros He.
  assert (forall k, (k < length (submitted cs))%nat ->
            assigned_ids cs e !! k = Some (wrap_int (1 + Z.of_nat k))) as Hk.
  { intros k Hk. pose proof He as -> %Exchange_new_Some.
    rewrite assigned_ids_lookup; [done| |done].
    simpl. unfold int_range, INT_MIN, INT_MAX. lia. }
  split; [exact Hk|]. split; [|split].
  - intros Hlen. pose proof (assigned_ids_fresh cs rank_ n e He Hlen) as Hids.
    split; [done|]. rewrite Hids. apply seqZ_increasing.
  - intros Hlen. apply NoDup_alt. intros i j x Hi Hj.
    pose proof (lookup_lt_Some _ _ _ Hi) as Hi'. pose proof (lookup_lt_Some _ _ _ Hj) as Hj'.
    rewrite assigned_ids_length in Hi', Hj'.
    rewrite Hk in Hi by done. rewrite Hk in Hj by done.
    assert (1 + Z.of_nat i = 1 + Z.of_nat j); [|lia].
    apply wrap_int_inj; [congruence|lia].
  - intros os ->. rewrite submit_all_pending.
    apply Exchange_new_Some in He as ->. simpl. split; [done|].
    pose proof (assigned_ids_length (Submit <$> os)
                  (mkExchange rank_ n (replicate (Z.to_nat n) OrderBook_new) [] [] 1)) as Hl.
    rewrite submitted_Submit in Hl.
    revert Hl. generalize (assigned_ids (Submit <$> os)
                  (mkExchange rank_ n (replicate (Z.to_nat n) OrderBook_new) [] [] 1)).
    clear. induction os as [|o os IH]; intros [|i ids] Hl; simpl in *; try done.
    f_equal. apply IH. lia.
Qed.

Lemma order_ids_increasing_witness :
  assigned_ids [Submit (mkOrder 7 0 100 1 true 0 0); Process 0;
                Submit (mkOrder 8 0 101 1 false 0 0)]
               (mkExchange 0 1 [OrderBook_new] [] [] 1) = [1; 2].
Proof.
  apply (proj1 (proj2 (order_ids_increasing
           [Submit (mkOrder 7 0 100 1 true 0 0); Process 0;
            Submit (mkOrder 8 0 101 1 false 0 0)] 0 1
           (mkExchange 0 1 [OrderBook_new] [] [] 1) eq_refl))).
  vm_compute. discriminate.
Defined.

(** C4. The ids are not unique, although [exchange.h] documents
    [order_id] as the "Unique order identifier" and [next_order_id] as the
    "Counter for unique order IDs": the counter is an [int] and wraps.  On
    a fresh exchange the 2147483647th submission is given the id
    2147483647 and the next one -2147483648, so the ids stop increasing;
    and the 4294967297th is given the id 1, which the first order has. *)
Lemma order_ids_wrap_around :
  let e := mkExchange 0 1 [OrderBook_new] [] [] 1 in
  let cs := Submit <$> replicate (Z.to_nat 4294967297) (mkOrder 0 0 100 1 true 0 0) in
  Exchange_new 0 1 = Some e /\
  assigned_ids cs e !! Z.to_nat 2147483646 = Some 2147483647 /\
  assigned_ids cs e !! Z.to_nat 2147483647 = Some (-2147483648) /\
  assigned_ids cs e !! Z.to_nat 0 = Some 1 /\
  assigned_ids cs e !! Z.to_nat 4294967296 = Some 1 /\
  ~ StronglySorted Z.lt (assigned_ids cs e) /\
  ~ NoDup (assigned_ids cs e).
Proof.
  intros e cs.
  assert (int_range (next_order_id e)) as Hr.
  { unfold int_range, INT_MIN, INT_MAX. simpl. lia. }
  assert (forall k v, 0 <= k < 4294967297 -> wrap_int (1 + k) = v ->
                      assigned_ids cs e !! Z.to_nat k = Some v) as Hk.
  { intros k v Hk <-. rewrite assigned_ids_lookup; [|done|].
    - rewrite Z2Nat.id by lia. done.
    - unfold cs. rewrite submitted_Submit, length_replicate. lia. }
  assert (assigned_ids cs e !! Z.to_nat 2147483646 = Some 2147483647) as H1.
  { apply Hk; [lia|reflexivity]. }
  assert (assigned_ids cs e !! Z.to_nat 2147483647 = Some (-2147483648)) as H2.
  { apply Hk; [lia|reflexivity]. }
  assert (assigned_ids cs e !! Z.to_nat 0 = Some 1) as H3.
  { apply Hk; [lia|reflexivity]. }
  assert (assigned_ids cs e !! Z.to_nat 4294967296 = Some 1) as H4.
  { apply Hk; [lia|reflexivity]. }
  split; [reflexivity|]. do 4 (split; [assumption|]). split.
  - intros Hs.
    assert (Z.to_nat 2147483646 < Z.to_nat 2147483647)%nat as Hlt by lia.
    pose proof (StronglySorted_lookup_1 Z.lt _ _ _ _ _ Hs Hlt H1 H2). lia.
  - intros Hn. pose proof (NoDup_lookup _ _ _ _ Hn H3 H4). lia.
Qed.

(** The books of an exchange only ever go through [add_order] and
    [match_orders]. *)
Lemma reachable_books e : reachable e -> Forall book_reachable (order_books e).
Proof.
  induction 1 as [rank_ n e He|c e _ IH].
  - apply Exchange_new_Some in He as ->. simpl.
    apply Forall_replicate, book_reachable_new.
  - destruct c as [o|tick]; simpl; [done|].
    rewrite process_orders_books. apply Forall_fmap.
    assert (Forall book_reachable (route_pending (order_books e) (pending_orders e))) as H.
    { revert IH. generalize (order_books e).
      induction (pending_orders e) as [|o pending IHp]; intros books Hb; [done|].
      simpl. apply IHp. unfold route_order.
      destruct (valid_instrument books (instrument_id o)); [|done].
      apply Forall_alter; [done|]. intros ob _ Hob. by apply book_reachable_add. }
    eapply Forall_impl; [exact H|]. intros ob Hob. by apply book_reachable_match.
Qed.

(** ** Resting volumes *)

Lemma add_order_positive o ob :
  positive_volume o -> book_positive ob -> book_positive (add_order o ob).
Proof.
  intros Ho [Hb Ha]. unfold add_order, book_positive.
  destruct (is_buy o); simpl; rewrite ?Forall_app, ?Forall_singleton; tauto.
Qed.

Lemma route_order_positive books o :
  positive_volume o -> Forall book_positive books ->
  Forall book_positive (route_order books o).
Proof.
  intros Ho Hb. unfold route_order.
  destruct (valid_instrument books (instrument_id o)); [|done].
  apply Forall_alter; [done|]. intros ob _. by apply add_order_positive.
Qed.

Lemma route_pending_positive books pending :
  Forall positive_volume pending -> Forall book_positive books ->
  Forall book_positive (route_pending books pending).
Proof.
  revert books. induction pending as [|o pending IH]; intros books Hp Hb; [done|].
  apply Forall_cons in Hp as [Ho Hp]. simpl. apply IH; [done|].
  by apply route_order_positive.
Qed.

(** With positive volumes on both sides the body leaves positive volumes
    at and after the cursors: an order it empties is stepped over. *)
Lemma match_step_positive tick s s' :
  (forall i o, (ms_bi s <= i)%nat -> bids (ms_book s) !! i = Some o -> positive_volume o) ->
  (forall i o, (ms_ai s <= i)%nat -> asks (ms_book s) !! i = Some o -> positive_volume o) ->
  match_step tick s = Some s' ->
  (forall i o, (ms_bi s' <= i)%nat -> bids (ms_book s') !! i = Some o -> positive_volume o) /\
  (forall i o, (ms_ai s' <= i)%nat -> asks (ms_book s') !! i = Some o -> positive_volume o).
Proof.
  intros HB HA (b & a & Hb & Ha & _ & ->)%match_step_Some; simpl.
  pose proof (HB _ _ (le_n _) Hb) as Pb. pose proof (HA _ _ (le_n _) Ha) as Pa.
  unfold positive_volume, INT_MAX in *.
  assert (forall r, 0 <= r <= 2147483647 -> wrap_int r = r) as Hw.
  { intros r Hr. apply wrap_int_id. unfold int_range, INT_MIN, INT_MAX. lia. }
  rewrite !Hw by lia.
  split; intros i o Hi Ho.
  - destruct (decide (i = ms_bi s)) as [->|Hne].
    + rewrite list_lookup_insert_eq in Ho by (by eapply lookup_lt_Some).
      injection Ho as <-. simpl.
      destruct (volume b - Z.min (volume b) (volume a) =? 0) eqn:E; [lia|].
      apply Z.eqb_neq in E. lia.
    + rewrite list_lookup_insert_ne in Ho by done. apply (HB i o); [|done].
      destruct (_ =? 0); lia.
  - destruct (decide (i = ms_ai s)) as [->|Hne].
    + rewrite list_lookup_insert_eq in Ho by (by eapply lookup_lt_Some).
      injection Ho as <-. simpl.
      destruct (volume a - Z.min (volume b) (volume a) =? 0) eqn:E; [lia|].
      apply Z.eqb_neq in E. lia.
    + rewrite list_lookup_insert_ne in Ho by done. apply (HA i o); [|done].
      destruct (_ =? 0); lia.
Qed.

Lemma match_orders_positive tick ob :
  book_positive ob -> book_positive (match_orders tick ob).2.
Proof.
  intros [Hb Ha]. rewrite match_orders_unfold. simpl.
  set (s0 := mkMatchState (sorted_book ob) 0 0 []).
  assert ((forall i o, (ms_bi s0 <= i)%nat -> bids (ms_book s0) !! i = Some o ->
                       positive_volume o) /\
          (forall i o, (ms_ai s0 <= i)%nat -> asks (ms_book s0) !! i = Some o ->
                       positive_volume o)) as H0.
  { split; intros i o _ Ho.
    - rewrite <- (std_sort_perm bid_cmp) in Hb.
      eapply Forall_lookup_1; [exact Hb|exact Ho].
    - rewrite <- (std_sort_perm ask_cmp) in Ha.
      eapply Forall_lookup_1; [exact Ha|exact Ho]. }
  pose proof (match_loop_invariant
    (fun s => (forall i o, (ms_bi s <= i)%nat -> bids (ms_book s) !! i = Some o ->
                           positive_volume o) /\
              (forall i o, (ms_ai s <= i)%nat -> asks (ms_book s) !! i = Some o ->
                           positive_volume o)) tick) as Hinv.
  specialize (Hinv (fun s s' H Hs => match_step_positive tick s s' (proj1 H) (proj2 H) Hs)
                   (length (bids ob) + length (asks ob))%nat s0 H0).
  destruct Hinv as [HB HA]. split; apply Forall_lookup_2; intros i o Ho;
    simpl in Ho; rewrite lookup_drop in Ho.
  - eapply HB; [|exact Ho]. lia.
  - eapply HA; [|exact Ho]. lia.
Qed.

Lemma resting_positive e :
  Forall book_positive (order_books e) -> Forall positive_volume (resting e).
Proof.
  unfold resting. intros H. apply Forall_join, Forall_fmap.
  eapply Forall_impl; [exact H|]. intros ob [Hb Ha]. simpl. by apply Forall_app.
Qed.

Lemma call_positive c e :
  match c with Submit o => positive_volume o | Process _ => True end ->
  Forall positive_volume (pending_orders e) -> Forall book_positive (order_books e) ->
  Forall positive_volume (pending_orders (call c e)) /\
  Forall book_positive (order_books (call c e)).
Proof.
  intros Hc Hp Hb. destruct c as [o|tick]; simpl.
  - split; [|done]. apply Forall_app. split; [done|]. by apply Forall_singleton.
  - rewrite process_orders_pending, process_orders_books. split; [done|].
    apply Forall_fmap. eapply Forall_impl; [by apply route_pending_positive|].
    intros ob Hob. by apply match_orders_positive.
Qed.

Lemma run_positive cs e :
  Forall positive_volume (submitted cs) ->
  Forall positive_volume (pending_orders e) -> Forall book_positive (order_books e) ->
  Forall positive_volume (pending_orders (run cs e)) /\
  Forall book_positive (order_books (run cs e)).
Proof.
  revert e. induction cs as [|c cs IH]; intros e Hs Hp Hb; [done|].
  change (run (c :: cs) e) with (run cs (call c e)).
  destruct (call_positive c e) as [Hp' Hb']; try done.
  - destruct c; [|done]. by apply Forall_cons in Hs as [? _].
  - apply IH; try done. destruct c; [|done]. by apply Forall_cons in Hs as [_ ?].
Qed.

(** C9, as amended. When every submitted order has a positive volume,
    every order resting in a book of the exchange has a positive volume at
    all times: none is negative, and none with volume 0 stays in its book
    after a matching pass. *)
Theorem resting_volumes_positive (cs : list Call) (rank_ n : Z) (e : Exchange) :
  Exchange_new rank_ n = Some e ->
  Forall positive_volume (submitted cs) ->
  Forall (fun o => 0 < volume o) (resting (run cs e)) /\
  Forall (fun o => 0 < volume o) (pending_orders (run cs e)).
Proof.
  intros -> %Exchange_new_Some Hs.
  destruct (run_positive cs (mkExchange rank_ n (replicate (Z.to_nat n) OrderBook_new) [] [] 1)
                         Hs) as [Hp Hb]; simpl.
  - constructor.
  - apply Forall_replicate. split; constructor.
  - split.
    + eapply Forall_impl; [by apply resting_positive|].
      intros o Ho. unfold positive_volume in Ho. lia.
    + eapply Forall_impl; [exact Hp|].
      intros o Ho. unfold positive_volume in Ho. lia.
Qed.

Lemma resting_volumes_positive_witness :
  Forall (fun o => 0 < volume o)
         (resting (run [Submit (mkOrder 1 0 101 10 true 0 0);
                        Submit (mkOrder 2 0 99 4 false 1 0); Process 1]
                       (mkExchange 0 1 [OrderBook_new] [] [] 1))).
Proof.
  apply (resting_volumes_positive
           [Submit (mkOrder 1 0 101 10 true 0 0);
            Submit (mkOrder 2 0 99 4 false 1 0); Process 1] 0 1
           (mkExchange 0 1 [OrderBook_new] [] [] 1)).
  - reflexivity.
  - repeat constructor; simpl; unfold INT_MAX; lia.
Defined.

(** C9, as stated, fails: submitted volumes are not checked, so an order
    of volume -5 rests with volume -5, and one of volume 0 rests with
    volume 0 after the matching pass. *)
Lemma resting_volume_counterexample :
  let e := mkExchange 0 1 [OrderBook_new] [] [] 1 in
  Exchange_new 0 1 = Some e /\
  resting (run [Submit (mkOrder 1 0 100 (-5) true 0 0); Process 0] e)
    = [mkOrder 1 0 100 (-5) true 0 1] /\
  resting (run [Submit (mkOrder 1 0 100 0 true 0 0); Process 0] e)
    = [mkOrder 1 0 100 0 true 0 1] /\
  ~ Forall (fun o => 0 <= volume o)
      (resting (run [Submit (mkOrder 1 0 100 (-5) true 0 0); Process 0] e)) /\
  ~ Forall (fun o => volume o <> 0)
      (resting (run [Submit (mkOrder 1 0 100 0 true 0 0); Process 0] e)).
Proof.
  intros e. split; [reflexivity|]. split; [reflexivity|]. split; [reflexivity|]. split.
  - intros H. apply Forall_cons in H as [H _]. simpl in H. lia.
  - intros H. apply Forall_cons in H as [H _]. simpl in H. lia.
Qed.

(** ** Aggregation across nodes *)

Lemma contributions_nonempty t : (0 < length (contributions t))%nat.
Proof. induction t as [x|l IHl r IHr]; simpl; [lia|]. rewrite length_app. lia. Qed.

(** The double the manager returns for position [i] is the double sum the
    collective left there, divided by [size]. *)
Lemma broadcast_prices_lookup allreduce m local_prices i :
  broadcast_prices allreduce m local_prices !! i =
  (fun v => (v / double_of_int (md_size m))%float)
    <$> allreduce local_prices (length local_prices) !! i.
Proof. unfold broadcast_prices. by rewrite list_lookup_fmap. Qed.

Lemma double_of_int_size n : double_of_int (Z.of_nat n) = double_of_size n.
Proof.
  unfold double_of_int, double_of_size.
  destruct (Z.ltb_spec (Z.of_nat n) 0) as [H|H]; [lia|done].
Qed.

(** C8, as amended. When the N ranks of the communicator call
    [broadcast_prices] with vectors of one length and each manager's
    [size] is N, the vector returned has that length and holds at each
    position the sum of the N values supplied for that position, as
    [MPI_Allreduce] adds them up in double arithmetic, divided in double
    arithmetic by N. *)
Theorem broadcast_prices_double_mean (allreduce : list float -> nat -> list float)
        (m : MarketDataManager) (world : list (list float)) (local_prices : list float) :
  world !! Z.to_nat (md_rank m) = Some local_prices ->
  md_size m = Z.of_nat (length world) ->
  Forall (fun v => length v = length local_prices) world ->
  MPI_Allreduce_SUM world (length local_prices)
                    (allreduce local_prices (length local_prices)) ->
  length (broadcast_prices allreduce m local_prices) = length local_prices /\
  forall i, (i < length local_prices)%nat ->
    length (column i world) = length world /\
    exists s,
      MPI_SUM (column i world) s /\
      broadcast_prices allreduce m local_prices !! i =
      Some (s / double_of_size (length world))%float.
Proof.
  intros Hlocal Hsize Hlen [Hcount Hsum].
  split; [unfold broadcast_prices; by rewrite length_fmap|].
  intros i Hi. split.
  - unfold column. clear -Hlen Hi. induction Hlen as [|v world Hv _ IH]; [done|].
    destruct (lookup_lt_is_Some_2 v i) as [x Hx]; [lia|].
    simpl. rewrite Hx. simpl. f_equal. exact IH.
  - destruct (lookup_lt_is_Some_2 (allreduce local_prices (length local_prices)) i)
      as [s Hs]; [lia|].
    exists s. split; [by apply Hsum|].
    rewrite broadcast_prices_lookup, Hs, Hsize, double_of_int_size. done.
Qed.

Lemma broadcast_prices_double_mean_witness :
  let allreduce := fun (sendbuf : list float) (count : nat) =>
                     zip_with PrimFloat.add (take count sendbuf) [104%float; 98%float] in
  let m := mkMarketDataManager 0 2 in
  let world := [[100%float; 102%float]; [104%float; 98%float]] in
  length (broadcast_prices allreduce m [100%float; 102%float]) = 2%nat /\
  forall i, (i < 2)%nat ->
    length (column i world) = 2%nat /\
    exists s,
      MPI_SUM (column i world) s /\
      broadcast_prices allreduce m [100%float; 102%float] !! i =
      Some (s / double_of_size 2)%float.
Proof.
  intros allreduce m world.
  apply (broadcast_prices_double_mean allreduce m world [100%float; 102%float]).
  - reflexivity.
  - reflexivity.
  - repeat constructor.
  - split; [reflexivity|]. intros [|[|i]] s Hs; simpl in Hs; [..|done].
    + injection Hs as <-.
      exists (Combined (Contribution 100%float) (Contribution 104%float)). by split.
    + injection Hs as <-.
      exists (Combined (Contribution 102%float) (Contribution 98%float)). by split.
Defined.

Lemma contributions_one t :
  length (contributions t) = 1%nat -> exists y, t = Contribution y.
Proof.
  destruct t as [y|l r]; [by exists y|]. simpl. rewrite length_app.
  pose proof (contributions_nonempty l). pose proof (contributions_nonempty r). lia.
Qed.

Lemma contributions_two t :
  length (contributions t) = 2%nat ->
  exists y z, t = Combined (Contribution y) (Contribution z).
Proof.
  destruct t as [y|l r]; [done|]. simpl. rewrite length_app. intros Hlen.
  pose proof (contributions_nonempty l). pose proof (contributions_nonempty r).
  destruct (contributions_one l) as [y ->]; [lia|].
  destruct (contributions_one r) as [z ->]; [lia|]. by exists y, z.
Qed.

(** Three equal values have one double sum or another, as they are
    grouped. *)
Lemma MPI_SUM_three x s :
  MPI_SUM [x; x; x] s ->
  s = ((x + x) + x)%float \/ s = (x + (x + x))%float.
Proof.
  intros (t & Hperm & <-).
  assert (Forall (fun y => y = x) (contributions t)) as Hall.
  { rewrite Hperm. by repeat constructor. }
  pose proof (Permutation_length Hperm) as Hlen. simpl in Hlen. clear Hperm.
  destruct t as [y|l r]; [done|]. simpl in *.
  rewrite length_app in Hlen. apply Forall_app in Hall as [Hl Hr].
  pose proof (contributions_nonempty l). pose proof (contributions_nonempty r).
  destruct (decide (length (contributions l) = 1%nat)) as [H1|H1].
  - destruct (contributions_one l H1) as [y ->].
    destruct (contributions_two r) as (z1 & z2 & ->); [lia|]. simpl in *.
    apply Forall_cons in Hl as [-> _].
    apply Forall_cons in Hr as [-> Hr]. apply Forall_cons in Hr as [-> _].
    by right.
  - destruct (contributions_two l) as (z1 & z2 & ->); [lia|].
    destruct (contributions_one r) as [y ->]; [simpl in *; lia|]. simpl in *.
    apply Forall_cons in Hr as [-> _].
    apply Forall_cons in Hl as [-> Hl]. apply Forall_cons in Hl as [-> _].
    by left.
Qed.

(** C8, as stated, fails: the mean is computed in double arithmetic.  When
    three ranks each supply the double nearest to 0.1, their sum is, in
    whatever order [MPI_Allreduce] adds them, the double nearest to
    0.30000000000000004, and the vector returned holds the double nearest
    to 0.10000000000000002, which is not the arithmetic mean of the three
    values (that is the double supplied). *)
Lemma broadcast_prices_rounding_counterexample :
  let x := 0x1.999999999999ap-4%float in
  let world := [[x]; [x]; [x]] in
  exact_mean x (column 0 world) /\
  (forall allreduce m,
      md_size m = 3 ->
      MPI_Allreduce_SUM world 1 (allreduce [x] 1%nat) ->
      broadcast_prices allreduce m [x] = [0x1.999999999999bp-4%float]) /\
  ~ exact_mean 0x1.999999999999bp-4%float (column 0 world).
Proof.
  intros x world. split; [|split].
  - eexists _, _. split; [reflexivity|]. split; [reflexivity|]. reflexivity.
  - intros allreduce m Hsize [Hcount Hsum].
    unfold broadcast_prices. simpl length.
    destruct (allreduce [x] 1%nat) as [|s [|? ?]] eqn:Hbuf; try done.
    specialize (Hsum 0%nat s eq_refl). simpl. rewrite Hsize. f_equal.
    apply MPI_SUM_three in Hsum as [-> | ->]; reflexivity.
  - intros (v & vs & Hv & Hvs & Hmean).
    vm_compute in Hv. vm_compute in Hvs.
    injection Hv as <-. injection Hvs as <-.
    vm_compute in Hmean. discriminate.
Qed.


(** ** Trades and the volume they execute *)

(** The trades the loop records are those of its matches, in order. *)
Lemma match_loop_trades tick fuel s :
  ms_trades (match_loop tick fuel s) =
  ms_trades s ++ (match_trade tick <$> loop_matches tick fuel s).
Proof.
  revert s. induction fuel as [|fuel IH]; intros s.
  - simpl. by rewrite app_nil_r.
  - destruct (match_step tick s) as [s'|] eqn:Hs.
    + destruct (loop_matches_S tick fuel s s' Hs) as (b & a & Hb & Ha & ->).
      simpl. rewrite Hs, IH.
      destruct (match_step_Some _ _ _ Hs) as (b' & a' & Hb' & Ha' & _ & ->).
      simpl. rewrite Hb in Hb'. rewrite Ha in Ha'.
      injection Hb' as <-. injection Ha' as <-.
      by rewrite <- app_assoc.
    + simpl. rewrite Hs. by rewrite app_nil_r.
Qed.

Lemma match_orders_trades tick ob :
  (match_orders tick ob).1 = match_trade tick <$> match_orders_matches tick ob.
Proof. rewrite match_orders_unfold. simpl. by rewrite match_loop_trades. Qed.






(** ** The account of one order *)


Lemma zip_match_trade tick ms :
  zip ms (match_trade tick <$> ms) = (fun m => (m, match_trade tick m)) <$> ms.
Proof. induction ms as [|m ms IH]; simpl; [done|]. by f_equal. Qed.







Lemma Forall_submseteq_inv {A} (P : A -> Prop) (l k : list A) :
  Forall P k -> l ⊆+ k -> Forall P l.
Proof.
  intros Hf [k' Hk]%submseteq_Permutation. rewrite Hk in Hf.
  by apply Forall_app in Hf as [? _].
Qed.

(** The orders a matching pass leaves are among those it found, volumes
    aside. *)
Lemma match_orders_submseteq tick ob :
  erase_volume <$> book_orders (match_orders tick ob).2 ⊆+ erase_volume <$> book_orders ob.
Proof.
  rewrite match_orders_unfold. unfold book_orders. simpl.
  destruct (match_loop_erase tick (length (bids ob) + length (asks ob))
                             (mkMatchState (sorted_book ob) 0 0 [])) as [Hb Ha].
  simpl in Hb, Ha. rewrite !fmap_app, !fmap_drop, Hb, Ha.
  apply submseteq_app.
  - etrans; [apply submseteq_drop|]. by rewrite (std_sort_perm bid_cmp).
  - etrans; [apply submseteq_drop|]. by rewrite (std_sort_perm ask_cmp).
Qed.







(** ** Orders on their way through the exchange *)

Lemma book_orders_add_order o ob : book_orders (add_order o ob) ≡ₚ o :: book_orders ob.
Proof.
  unfold add_order, book_orders. destruct (is_buy o); simpl.
  - rewrite <- app_assoc, (Permutation_app_comm [o] (asks ob)), app_assoc.
    by rewrite <- Permutation_cons_append.
  - rewrite app_assoc. by rewrite <- Permutation_cons_append.
Qed.

Lemma join_alter_add_order o (i : nat) books :
  (i < length books)%nat ->
  mjoin (book_orders <$> alter (add_order o) i books) ≡ₚ o :: mjoin (book_orders <$> books).
Proof.
  revert i. induction books as [|ob books IH]; intros i Hi; simpl in Hi; [lia|].
  destruct i as [|i]; simpl.
  - by rewrite book_orders_add_order.
  - change (list_alter (add_order o) i books) with (alter (add_order o) i books).
    fold (@fmap list _ _ _ book_orders (alter (add_order o) i books)).
    rewrite IH by lia. by rewrite Permutation_middle.
Qed.

Lemma route_order_orders books o :
  mjoin (book_orders <$> route_order books o) ⊆+ o :: mjoin (book_orders <$> books).
Proof.
  unfold route_order. destruct (valid_instrument books (instrument_id o)) eqn:Hv.
  - apply valid_instrument_true in Hv.
    rewrite join_alter_add_order by lia. done.
  - by apply submseteq_cons.
Qed.

(** Routing loses orders at most: what rests afterwards was resting or
    queued. *)
Lemma route_pending_orders books pending :
  mjoin (book_orders <$> route_pending books pending)
    ⊆+ pending ++ mjoin (book_orders <$> books).
Proof.
  revert books. induction pending as [|o pending IH]; intros books; simpl; [done|].
  etrans; [apply IH|]. etrans; [apply submseteq_skips_l, route_order_orders|].
  by rewrite Permutation_middle.
Qed.

















Lemma match_trade_fields tick ms :
  Forall2 (fun m t => trade_of_match m t /\ trade_timestamp t = tick)
          ms (match_trade tick <$> ms).
Proof.
  induction ms as [|m ms IH]; simpl; constructor; [|exact IH].
  unfold trade_of_match. simpl. repeat split; reflexivity.
Qed.

(** ** Order ids are never read *)

Lemma sort_insert_forget cmp x l :
  (forall a b, cmp (forget_id a) (forget_id b) = cmp a b) ->
  sort_insert cmp (forget_id x) (forget_id <$> l) = forget_id <$> sort_insert cmp x l.
Proof.
  intros Hcmp. induction l as [|y l IH]; [done|].
  cbn [fmap list_fmap sort_insert]. rewrite Hcmp.
  destruct (cmp y x); [|done]. cbn [fmap list_fmap]. f_equal. exact IH.
Qed.

Lemma std_sort_forget cmp l :
  (forall a b, cmp (forget_id a) (forget_id b) = cmp a b) ->
  std_sort cmp (forget_id <$> l) = forget_id <$> std_sort cmp l.
Proof.
  intros Hcmp. induction l as [|x l IH]; [done|].
  cbn [fmap list_fmap]. unfold std_sort in *. cbn [foldr].
  rewrite IH. by apply sort_insert_forget.
Qed.

Lemma sorted_book_forget ob :
  sorted_book (forget_ids_book ob) = forget_ids_book (sorted_book ob).
Proof.
  unfold sorted_book, forget_ids_book. simpl.
  by rewrite (std_sort_forget bid_cmp), (std_sort_forget ask_cmp).
Qed.

Lemma match_step_forget tick s :
  match_step tick (forget_ids_state s) = forget_ids_state <$> match_step tick s.
Proof.
  unfold match_step. cbn [forget_ids_state forget_ids_book ms_book ms_bi ms_ai ms_trades
                          bids asks last_price price_history].
  rewrite !list_lookup_fmap.
  destruct (bids (ms_book s) !! ms_bi s) as [b|]; [|done].
  destruct (asks (ms_book s) !! ms_ai s) as [a|]; [|done].
  cbn [fmap option_fmap option_map forget_id set_order_id price volume agent_id instrument_id].
  destruct (Qltb (price b) (price a)); [done|].
  cbn [fmap option_fmap option_map]. f_equal.
  unfold forget_ids_state, forget_ids_book.
  cbn [ms_book ms_bi ms_ai ms_trades bids asks last_price price_history trade_price
       set_volume volume].
  rewrite !list_fmap_insert. done.
Qed.

Lemma match_loop_forget tick fuel s :
  match_loop tick fuel (forget_ids_state s) = forget_ids_state (match_loop tick fuel s).
Proof.
  revert s. induction fuel as [|fuel IH]; intros s; [done|].
  cbn [match_loop]. rewrite match_step_forget.
  destruct (match_step tick s) as [s'|]; [|done]. apply IH.
Qed.

Lemma loop_matches_forget tick fuel s :
  loop_matches tick fuel (forget_ids_state s) =
  forget_ids_match <$> loop_matches tick fuel s.
Proof.
  revert s. induction fuel as [|fuel IH]; intros s; [done|].
  cbn [loop_matches]. rewrite match_step_forget.
  destruct (match_step tick s) as [s'|]; [|done].
  cbn [fmap option_fmap option_map forget_ids_state forget_ids_book ms_book ms_bi ms_ai
       bids asks].
  rewrite !list_lookup_fmap.
  destruct (bids (ms_book s) !! ms_bi s) as [b|]; [|done].
  destruct (asks (ms_book s) !! ms_ai s) as [a|]; [|done].
  cbn [fmap option_fmap option_map list_fmap]. f_equal. apply IH.
Qed.

Lemma match_orders_forget tick ob :
  match_orders tick (forget_ids_book ob) =
  ((match_orders tick ob).1, forget_ids_book (match_orders tick ob).2).
Proof.
  unfold match_orders. rewrite sorted_book_forget.
  cbn [forget_ids_book bids asks]. rewrite !length_fmap.
  change (mkMatchState (forget_ids_book (sorted_book ob)) 0 0 [])
    with (forget_ids_state (mkMatchState (sorted_book ob) 0 0 [])).
  rewrite match_loop_forget.
  unfold forget_ids_book.
  cbn [fst snd forget_ids_state ms_book ms_bi ms_ai ms_trades
       bids asks last_price price_history].
  by rewrite !fmap_drop.
Qed.

Lemma match_orders_matches_forget tick ob :
  match_orders_matches tick (forget_ids_book ob) =
  forget_ids_match <$> match_orders_matches tick ob.
Proof.
  unfold match_orders_matches. rewrite sorted_book_forget.
  cbn [forget_ids_book bids asks]. rewrite !length_fmap.
  apply (loop_matches_forget tick _ (mkMatchState (sorted_book ob) 0 0 [])).
Qed.

Lemma add_order_forget o ob :
  add_order (forget_id o) (forget_ids_book ob) = forget_ids_book (add_order o ob).
Proof.
  unfold add_order, forget_ids_book. cbn [forget_id set_order_id is_buy].
  destruct (is_buy o); cbn [bids asks last_price price_history]; by rewrite fmap_app.
Qed.

Lemma route_order_forget books o :
  route_order (forget_ids_book <$> books) (forget_id o) =
  forget_ids_book <$> route_order books o.
Proof.
  unfold route_order, valid_instrument. rewrite length_fmap.
  cbn [forget_id set_order_id instrument_id].
  destruct ((0 <=? instrument_id o) && (instrument_id o <? Z.of_nat (length books))); [|done].
  generalize (Z.to_nat (instrument_id o)). intros i.
  revert i. induction books as [|ob books IH]; intros i; [done|].
  destruct i as [|i]; cbn [fmap list_fmap alter list_alter].
  - f_equal. apply (add_order_forget o).
  - f_equal. apply IH.
Qed.

Lemma route_pending_forget books pending :
  route_pending (forget_ids_book <$> books) (forget_id <$> pending) =
  forget_ids_book <$> route_pending books pending.
Proof.
  revert books. induction pending as [|o pending IH]; intros books; [done|].
  cbn [fmap list_fmap route_pending foldl]. rewrite route_order_forget. apply IH.
Qed.

Lemma match_all_forget tick books total log :
  match_all tick (forget_ids_book <$> books) total log =
  ((forget_ids_book <$> (match_all tick books total log).1.1),
   (match_all tick books total log).1.2, (match_all tick books total log).2).
Proof.
  revert total log. induction books as [|ob books IH]; intros total log; [done|].
  cbn [fmap list_fmap]. rewrite !match_all_cons, match_orders_forget.
  cbn [fst snd]. rewrite IH. done.
Qed.

Lemma process_orders_forget tick e :
  process_orders tick (forget_ids e) =
  ((process_orders tick e).1, forget_ids (process_orders tick e).2).
Proof.
  unfold process_orders. cbn [forget_ids order_books pending_orders trade_log rank
                              num_instruments next_order_id].
  rewrite route_pending_forget, match_all_forget.
  destruct (match_all tick (route_pending (order_books e) (pending_orders e)) 0 (trade_log e))
    as [[books' total] log']. done.
Qed.

Lemma process_matches_forget tick e :
  process_matches tick (forget_ids e) = forget_ids_match <$> process_matches tick e.
Proof.
  unfold process_matches. cbn [forget_ids order_books pending_orders].
  rewrite route_pending_forget.
  induction (route_pending (order_books e) (pending_orders e)) as [|ob obs IH]; [done|].
  cbn [fmap list_fmap mjoin list_join]. rewrite fmap_app, match_orders_matches_forget.
  f_equal. exact IH.
Qed.



(** X24. No line of the exchange reads [order_id]: on two exchanges that
    differ in order ids only (those of the queued and resting orders, and
    the counter), [process_orders] returns the same count, logs the same
    trades and matches the same orders, and leaves exchanges that again
    differ in order ids only; the prices they report are the same. *)
Theorem order_ids_never_read (tick : Z) (e e' : Exchange) :
  forget_ids e = forget_ids e' ->
  (process_orders tick e).1 = (process_orders tick e').1 /\
  trade_log (process_orders tick e).2 = trade_log (process_orders tick e').2 /\
  forget_ids_match <$> process_matches tick e = forget_ids_match <$> process_matches tick e' /\
  forget_ids (process_orders tick e).2 = forget_ids (process_orders tick e').2 /\
  (get_all_prices e).1 = (get_all_prices e').1.
Proof.
  intros H.
  pose proof (process_orders_forget tick e) as E.
  pose proof (process_orders_forget tick e') as E'. rewrite H, E' in E.
  assert ((process_orders tick e').1 = (process_orders tick e).1) as E1 by congruence.
  assert (forget_ids (process_orders tick e').2 = forget_ids (process_orders tick e).2)
    as E2 by congruence.
  split; [by symmetry|]. split; [|split; [|split; [by symmetry|]]].
  - change (trade_log (forget_ids (process_orders tick e).2) =
            trade_log (forget_ids (process_orders tick e').2)). by rewrite E2.
  - by rewrite <- !process_matches_forget, H.
  - unfold get_all_prices, forget_ids in *. simpl. injection H as _ _ Hb _ _.
    apply (f_equal (fmap last_price)) in Hb.
    rewrite <- !list_fmap_compose in Hb. exact Hb.
Qed.

Lemma order_ids_never_read_witness :
  let e := mkExchange 0 1 [OrderBook_new]
             [mkOrder 1 0 101 10 true 0 5; mkOrder 2 0 99 10 false 1 6] [] 7 in
  let e' := mkExchange 0 1 [OrderBook_new]
              [mkOrder 1 0 101 10 true 0 (-3); mkOrder 2 0 99 10 false 1 (-3)] [] 0 in
  (process_orders 1 e).1 = (process_orders 1 e').1 /\
  trade_log (process_orders 1 e).2 = trade_log (process_orders 1 e').2.
Proof.
  intros e e'.
  destruct (order_ids_never_read 1 e e') as (H1 & H2 & _); [reflexivity|].
  split; [exact H1|exact H2].
Defined.







(** The prices of the two scenarios of the design document are exact in
    double arithmetic. *)
Lemma scenario_prices_exact :
  trade_price_double 101 99 = 100%float /\ trade_price_double 100 100 = 100%float /\
  exact_midpoint (trade_price_double 101 99) 101 99 /\
  exact_midpoint (trade_price_double 100 100) 100 100.
Proof.
  split; [reflexivity|]. split; [reflexivity|].
  split; eexists _, _, _; (split; [reflexivity|]); (split; [reflexivity|]);
    (split; [reflexivity|]); vm_compute; reflexivity.
Qed.

(** * Further properties of the order book *)

(** ** The comparators *)

(** X1. On orders whose prices are finite (neither NaN nor infinite),
    [bid_cmp] and [ask_cmp] are strict weak orderings, which is what
    [std::sort] asks of its comparator: irreflexive, transitive, and with a
    transitive "neither before the other". *)
Theorem comparators_strict_weak :
  (forall a, bid_cmp a a = false) /\
  (forall a b c, bid_cmp a b = true -> bid_cmp b c = true -> bid_cmp a c = true) /\
  (forall a b c, bid_cmp a b = false -> bid_cmp b a = false ->
                 bid_cmp b c = false -> bid_cmp c b = false ->
                 bid_cmp a c = false /\ bid_cmp c a = false) /\
  (forall a, ask_cmp a a = false) /\
  (forall a b c, ask_cmp a b = true -> ask_cmp b c = true -> ask_cmp a c = true) /\
  (forall a b c, ask_cmp a b = false -> ask_cmp b a = false ->
                 ask_cmp b c = false -> ask_cmp c b = false ->
                 ask_cmp a c = false /\ ask_cmp c a = false).
Proof.
  split; [|split; [|split; [|split; [|split]]]].
  - intros a. apply bid_cmp_false. right. split; [reflexivity|lia].
  - intros a b c. rewrite !bid_cmp_true. intros [H|[H Ht]] [H'|[H' Ht']].
    + left; lra.
    + left; lra.
    + left; lra.
    + right. split; [lra|lia].
  - intros a b c Hab Hba Hbc Hcb. split.
    + by apply (bid_cmp_not_after_trans c b a).
    + by apply (bid_cmp_not_after_trans a b c).
  - intros a. apply ask_cmp_false. right. split; [reflexivity|lia].
  - intros a b c. rewrite !ask_cmp_true. intros [H|[H Ht]] [H'|[H' Ht']].
    + left; lra.
    + left; lra.
    + left; lra.
    + right. split; [lra|lia].
  - intros a b c Hab Hba Hbc Hcb. split.
    + by apply (ask_cmp_not_after_trans c b a).
    + by apply (ask_cmp_not_after_trans a b c).
Qed.

Lemma comparators_strict_weak_witness :
  bid_cmp (mkOrder 1 0 102 1 true 0 1) (mkOrder 3 0 100 1 true 0 3) = true.
Proof.
  apply (proj1 (proj2 comparators_strict_weak)
               (mkOrder 1 0 102 1 true 0 1) (mkOrder 2 0 101 1 true 0 2)
               (mkOrder 3 0 100 1 true 0 3)); reflexivity.
Defined.

(** ** A pass leaves the book sorted *)

Lemma bid_cmp_erase a b : bid_cmp (erase_volume a) (erase_volume b) = bid_cmp a b.
Proof. done. Qed.

Lemma ask_cmp_erase a b : ask_cmp (erase_volume a) (erase_volume b) = ask_cmp a b.
Proof. done. Qed.

(** Sortedness looks at prices and ticks only, which matching leaves
    alone. *)
Lemma sorted_erase_volume cmp (l l' : list Order) :
  (forall a b, cmp (erase_volume a) (erase_volume b) = cmp a b) ->
  erase_volume <$> l = erase_volume <$> l' ->
  StronglySorted (not_after cmp) l' -> StronglySorted (not_after cmp) l.
Proof.
  intros Hcmp He Hs. apply StronglySorted_lookup_2. intros i j x y Hij Hi Hj.
  destruct (erase_volume_lookup _ _ _ _ He Hi) as (x' & Hx' & Ex).
  destruct (erase_volume_lookup _ _ _ _ He Hj) as (y' & Hy' & Ey).
  pose proof (StronglySorted_lookup_1 _ _ _ _ _ _ Hs Hij Hx' Hy') as H.
  unfold not_after in *. by rewrite <- Hcmp, <- Ex, <- Ey, Hcmp.
Qed.

Lemma sorted_drop {A} (R : A -> A -> Prop) (l : list A) n :
  StronglySorted R l -> StronglySorted R (drop n l).
Proof.
  intros Hs. apply StronglySorted_lookup_2. intros i j x y Hij Hi Hj.
  rewrite lookup_drop in Hi, Hj.
  eapply (StronglySorted_lookup_1 R l); [done| |done..]. lia.
Qed.

Lemma match_orders_sides_sorted tick ob :
  StronglySorted (not_after bid_cmp) (bids (match_orders tick ob).2) /\
  StronglySorted (not_after ask_cmp) (asks (match_orders tick ob).2).
Proof.
  rewrite match_orders_unfold. simpl.
  destruct (match_loop_erase tick (length (bids ob) + length (asks ob))
                             (mkMatchState (sorted_book ob) 0 0 [])) as [Hb Ha].
  simpl in Hb, Ha. split; apply sorted_drop.
  - eapply (sorted_erase_volume bid_cmp); [apply bid_cmp_erase|exact Hb|].
    apply std_sort_sorted; [apply bid_cmp_asym|apply bid_cmp_not_after_trans].
  - eapply (sorted_erase_volume ask_cmp); [apply ask_cmp_erase|exact Ha|].
    apply std_sort_sorted; [apply ask_cmp_asym|apply ask_cmp_not_after_trans].
Qed.

(** The loop does not start on a book whose first bid and ask it would not
    match. *)
Lemma match_loop_None tick fuel s :
  match_step tick s = None -> match_loop tick fuel s = s.
Proof. intros H. destruct fuel; simpl; [done|]. by rewrite H. Qed.

(** X2. When every price is finite (neither NaN nor infinite), after
    [match_orders] both sides are in matching order: bids by price
    descending, asks by price ascending, earlier tick first among equal
    prices; so the best bid and the best ask are the first elements. *)
Theorem match_orders_leaves_sorted (tick : Z) (ob : OrderBook) :
  StronglySorted (not_after bid_cmp) (bids (match_orders tick ob).2) /\
  StronglySorted (not_after ask_cmp) (asks (match_orders tick ob).2) /\
  (forall i j b b', (i <= j)%nat ->
      bids (match_orders tick ob).2 !! i = Some b ->
      bids (match_orders tick ob).2 !! j = Some b' -> (price b' <= price b)%Q) /\
  (forall i j a a', (i <= j)%nat ->
      asks (match_orders tick ob).2 !! i = Some a ->
      asks (match_orders tick ob).2 !! j = Some a' -> (price a <= price a')%Q).
Proof.
  destruct (match_orders_sides_sorted tick ob) as [Hb Ha].
  split; [done|]. split; [done|]. split.
  - intros i j b b' Hij Hi Hj. destruct (decide (i = j)) as [->|Hne].
    + rewrite Hi in Hj. injection Hj as ->. apply Qle_refl.
    + apply bid_cmp_false_price. change (not_after bid_cmp b b').
      eapply (StronglySorted_lookup_1 _ _ i j); [exact Hb| |done..]. lia.
  - intros i j a a' Hij Hi Hj. destruct (decide (i = j)) as [->|Hne].
    + rewrite Hi in Hj. injection Hj as ->. apply Qle_refl.
    + apply ask_cmp_false_price. change (not_after ask_cmp a a').
      eapply (StronglySorted_lookup_1 _ _ i j); [exact Ha| |done..]. lia.
Qed.

Lemma match_orders_leaves_sorted_witness :
  (price (mkOrder 2 0 98 5 true 0 2) <= price (mkOrder 1 0 99 5 true 0 1))%Q.
Proof.
  apply (proj1 (proj2 (proj2 (match_orders_leaves_sorted 0
           (mkOrderBook [mkOrder 2 0 98 5 true 0 2; mkOrder 1 0 99 5 true 0 1]
                        [mkOrder 3 0 101 5 false 0 3] 100 [100%Q]))))
               0%nat 1%nat).
  - lia.
  - reflexivity.
  - reflexivity.
Defined.

(** ** When a pass trades *)

Lemma match_step_None_iff tick s :
  match_step tick s = None <->
  bids (ms_book s) !! ms_bi s = None \/
  asks (ms_book s) !! ms_ai s = None \/
  exists b a,
    bids (ms_book s) !! ms_bi s = Some b /\
    asks (ms_book s) !! ms_ai s = Some a /\
    (price b < price a)%Q.
Proof.
  unfold match_step.
  destruct (bids (ms_book s) !! ms_bi s) as [b|] eqn:Hb; [|by split; [left|]].
  destruct (asks (ms_book s) !! ms_ai s) as [a|] eqn:Ha; [|by split; [right; left|]].
  destruct (Qltb (price b) (price a)) eqn:Hlt.
  - split; [|done]. intros _. right. right. exists b, a. by rewrite <- Qltb_lt.
  - split; [done|]. intros [?|[?|(b' & a' & [= <-] & [= <-] & H)]]; try done.
    apply Qltb_lt in H. congruence.
Qed.

Lemma match_orders_no_trade tick ob :
  (match_orders tick ob).1 = [] <->
  match_step tick (mkMatchState (sorted_book ob) 0 0 []) = None.
Proof.
  rewrite match_orders_unfold. simpl.
  destruct (match_step tick (mkMatchState (sorted_book ob) 0 0 [])) as [s'|] eqn:Hs.
  - split; [|done]. intros Hnil. exfalso.
    destruct (match_step_Some _ _ _ Hs) as (b & a & Hb & Ha & _ & _).
    apply lookup_lt_Some in Hb. simpl in Hb. rewrite (std_sort_length bid_cmp) in Hb.
    destruct (length (bids ob) + length (asks ob))%nat as [|fuel] eqn:Hf; [lia|].
    rewrite match_loop_trades in Hnil.
    destruct (loop_matches_S tick fuel _ _ Hs) as (b' & a' & _ & _ & E).
    rewrite E in Hnil. done.
  - split; [done|]. intros _. by rewrite match_loop_None.
Qed.

(** X4. A pass records no trade exactly when, after sorting, a side is empty or
    the best bid is priced below the best ask; it then leaves the sorted
    book, with the last price and the history as they were. *)
Theorem match_orders_trades_nothing_iff (tick : Z) (ob : OrderBook) :
  ((match_orders tick ob).1 = [] <->
   bids (sorted_book ob) !! 0%nat = None \/
   asks (sorted_book ob) !! 0%nat = None \/
   exists b a,
     bids (sorted_book ob) !! 0%nat = Some b /\
     asks (sorted_book ob) !! 0%nat = Some a /\
     (price b < price a)%Q) /\
  ((match_orders tick ob).1 = [] -> (match_orders tick ob).2 = sorted_book ob) /\
  (bids ob = [] \/ asks ob = [] -> match_orders tick ob = ([], sorted_book ob)).
Proof.
  assert ((match_orders tick ob).1 = [] -> (match_orders tick ob).2 = sorted_book ob) as H2.
  { intros Hnil%match_orders_no_trade. rewrite match_orders_unfold. simpl.
    rewrite match_loop_None by done. simpl. by rewrite !drop_0. }
  split; [|split; [done|]].
  - rewrite match_orders_no_trade, match_step_None_iff. done.
  - intros Hempty.
    assert ((match_orders tick ob).1 = []) as Hnil.
    { apply match_orders_no_trade, match_step_None_iff. simpl.
      destruct Hempty as [-> | ->]; [by left|by right; left]. }
    specialize (H2 Hnil). destruct (match_orders tick ob) as [ts ob']. simpl in *.
    by subst.
Qed.

Lemma match_orders_trades_nothing_iff_witness :
  match_orders 7 (mkOrderBook [mkOrder 1 0 99 5 true 1 1; mkOrder 2 0 101 5 true 1 2] []
                              100 [100%Q])
  = ([], sorted_book (mkOrderBook [mkOrder 1 0 99 5 true 1 1; mkOrder 2 0 101 5 true 1 2] []
                                  100 [100%Q])).
Proof.
  apply (proj2 (proj2 (match_orders_trades_nothing_iff 7
           (mkOrderBook [mkOrder 1 0 99 5 true 1 1; mkOrder 2 0 101 5 true 1 2] []
                        100 [100%Q])))).
  right. reflexivity.
Defined.

(** ** A second pass finds nothing *)





(** ** What a pass does to the orders *)

Lemma match_orders_sides_erase tick ob :
  exists nb na,
    erase_volume <$> bids (match_orders tick ob).2 =
      drop nb (erase_volume <$> bids (sorted_book ob)) /\
    erase_volume <$> asks (match_orders tick ob).2 =
      drop na (erase_volume <$> asks (sorted_book ob)).
Proof.
  rewrite match_orders_unfold. simpl.
  destruct (match_loop_erase tick (length (bids ob) + length (asks ob))
                             (mkMatchState (sorted_book ob) 0 0 [])) as [Hb Ha].
  simpl in Hb, Ha. eexists _, _. rewrite !fmap_drop, Hb, Ha. done.
Qed.

(** X6. A pass writes nothing of an order but its volume, creates no order and
    moves none to the other side; the orders it removes are the first ones
    of each sorted side. *)
Theorem match_orders_keeps_orders (tick : Z) (ob : OrderBook) :
  (exists nb na,
      erase_volume <$> bids (match_orders tick ob).2 =
        drop nb (erase_volume <$> bids (sorted_book ob)) /\
      erase_volume <$> asks (match_orders tick ob).2 =
        drop na (erase_volume <$> asks (sorted_book ob))) /\
  erase_volume <$> bids (match_orders tick ob).2 ⊆+ erase_volume <$> bids ob /\
  erase_volume <$> asks (match_orders tick ob).2 ⊆+ erase_volume <$> asks ob.
Proof.
  destruct (match_orders_sides_erase tick ob) as (nb & na & Hb & Ha).
  split; [by exists nb, na|]. rewrite Hb, Ha. simpl. split.
  - etrans; [apply submseteq_drop|]. by rewrite (std_sort_perm bid_cmp).
  - etrans; [apply submseteq_drop|]. by rewrite (std_sort_perm ask_cmp).
Qed.

(** ** Last price *)

Lemma match_loop_last_price tick fuel s :
  last_price (ms_book (match_loop tick fuel s)) =
  default (last_price (ms_book s))
          (trade_price <$> last (match_trade tick <$> loop_matches tick fuel s)).
Proof.
  revert s. induction fuel as [|fuel IH]; intros s; [done|].
  destruct (match_step tick s) as [s'|] eqn:Hs.
  - destruct (loop_matches_S tick fuel s s' Hs) as (b & a & Hb & Ha & ->).
    cbn [match_loop]. rewrite Hs, IH. cbn [fmap list_fmap]. rewrite last_cons.
    destruct (last (match_trade tick <$> loop_matches tick fuel s')) as [t|]; [done|].
    simpl.
    destruct (match_step_Some _ _ _ Hs) as (b' & a' & Hb' & Ha' & _ & ->).
    rewrite Hb in Hb'. rewrite Ha in Ha'. injection Hb' as <-. injection Ha' as <-.
    done.
  - simpl. by rewrite Hs.
Qed.

Lemma match_orders_last_price tick ob :
  last_price (match_orders tick ob).2 =
  default (last_price ob) (trade_price <$> last (match_orders tick ob).1).
Proof.
  rewrite match_orders_trades. rewrite match_orders_unfold. simpl.
  by rewrite match_loop_last_price.
Qed.

Lemma add_order_last_price o ob : last_price (add_order o ob) = last_price ob.
Proof. unfold add_order. by destruct (is_buy o). Qed.

Lemma book_reachable_last_price ob :
  book_reachable ob -> last (price_history ob) = Some (last_price ob).
Proof.
  induction 1 as [|o ob _ IH|tick ob _ IH].
  - done.
  - by rewrite add_order_history, add_order_last_price.
  - rewrite match_orders_history, match_orders_last_price, last_app, fmap_last.
    by destruct (last (match_orders tick ob).1).
Qed.

(** X7. After a pass the last price is the price of the last trade of the
    pass, and the old last price when the pass traded nothing; and in every
    state a book reaches, the last price is the last entry of the price
    history. *)
Theorem last_price_is_last_trade (tick : Z) (ob : OrderBook) :
  last_price (match_orders tick ob).2 =
    default (last_price ob) (trade_price <$> last (match_orders tick ob).1) /\
  (book_reachable ob -> last (price_history ob) = Some (last_price ob)).
Proof.
  split; [apply match_orders_last_price|apply book_reachable_last_price].
Qed.

Lemma last_price_is_last_trade_witness :
  last (price_history scenario_A_book) = Some (last_price scenario_A_book).
Proof.
  apply (proj2 (last_price_is_last_trade 0 scenario_A_book)).
  apply book_reachable_match, book_reachable_add, book_reachable_add, book_reachable_new.
Defined.

(** ** Volume conservation *)

Lemma Zsum_app l1 l2 : Zsum (l1 ++ l2) = Zsum l1 + Zsum l2.
Proof. induction l1 as [|z l1 IH]; simpl; [done|]. rewrite IH. lia. Qed.

Lemma Zsum_perm l l' : l ≡ₚ l' -> Zsum l = Zsum l'.
Proof. induction 1; simpl; lia. Qed.

Lemma total_volume_perm l l' : l ≡ₚ l' -> total_volume l = total_volume l'.
Proof. intros H. unfold total_volume. apply Zsum_perm. by rewrite H. Qed.

Lemma Zsum_insert (l : list Z) i x y :
  l !! i = Some x -> Zsum (<[i := y]> l) = Zsum l - x + y.
Proof.
  revert i. induction l as [|z l IH]; intros i Hi; [done|].
  destruct i as [|i]; simpl in *.
  - injection Hi as ->. lia.
  - rewrite (IH i Hi). lia.
Qed.

Lemma Zsum_drop (l : list Z) n :
  (forall i x, (i < n)%nat -> l !! i = Some x -> x = 0) -> Zsum (drop n l) = Zsum l.
Proof.
  revert l. induction n as [|n IH]; intros l H; [by rewrite drop_0|].
  destruct l as [|x l]; [done|]. simpl.
  rewrite IH.
  - rewrite (H 0%nat x); [lia|lia|done].
  - intros i o Hi Ho. apply (H (S i) o); [lia|done].
Qed.

Lemma total_volume_insert (l : list Order) i o v :
  l !! i = Some o ->
  total_volume (<[i := set_volume o v]> l) = total_volume l - volume o + v.
Proof.
  intros Hi. unfold total_volume. rewrite list_fmap_insert. simpl.
  apply Zsum_insert. by rewrite list_lookup_fmap, Hi.
Qed.

Lemma total_volume_drop (l : list Order) n :
  (forall i o, (i < n)%nat -> l !! i = Some o -> volume o = 0) ->
  total_volume (drop n l) = total_volume l.
Proof.
  intros H. unfold total_volume. rewrite fmap_drop. apply Zsum_drop.
  intros i x Hi Hx. rewrite list_lookup_fmap in Hx.
  destruct (l !! i) as [o|] eqn:Ho; [|done]. injection Hx as <-. by eapply H.
Qed.

(** The loop with positive volumes: what is behind a cursor is used up,
    and what a side has lost is what the trades have executed. *)
Lemma match_step_conserves tick s s' :
  (forall i o, (ms_bi s <= i)%nat -> bids (ms_book s) !! i = Some o -> positive_volume o) ->
  (forall i o, (ms_ai s <= i)%nat -> asks (ms_book s) !! i = Some o -> positive_volume o) ->
  (forall i o, (i < ms_bi s)%nat -> bids (ms_book s) !! i = Some o -> volume o = 0) ->
  (forall i o, (i < ms_ai s)%nat -> asks (ms_book s) !! i = Some o -> volume o = 0) ->
  match_step tick s = Some s' ->
  (forall i o, (i < ms_bi s')%nat -> bids (ms_book s') !! i = Some o -> volume o = 0) /\
  (forall i o, (i < ms_ai s')%nat -> asks (ms_book s') !! i = Some o -> volume o = 0) /\
  exists t,
    ms_trades s' = ms_trades s ++ [t] /\ 0 < trade_volume t /\
    total_volume (bids (ms_book s')) = total_volume (bids (ms_book s)) - trade_volume t /\
    total_volume (asks (ms_book s')) = total_volume (asks (ms_book s)) - trade_volume t.
Proof.
  intros HB HA ZB ZA (b & a & Hb & Ha & _ & ->)%match_step_Some; simpl.
  pose proof (HB _ _ (le_n _) Hb) as Pb. pose proof (HA _ _ (le_n _) Ha) as Pa.
  unfold positive_volume, INT_MAX in *.
  assert (forall r, 0 <= r <= 2147483647 -> wrap_int r = r) as Hw.
  { intros r Hr. apply wrap_int_id. unfold int_range, INT_MIN, INT_MAX. lia. }
  rewrite !Hw by lia.
  split; [|split].
  - intros i o Hi Ho. destruct (decide (i = ms_bi s)) as [->|Hne].
    + rewrite list_lookup_insert_eq in Ho by (by eapply lookup_lt_Some).
      injection Ho as <-. simpl.
      destruct (volume b - Z.min (volume b) (volume a) =? 0) eqn:E; [|lia].
      by apply Z.eqb_eq in E.
    + rewrite list_lookup_insert_ne in Ho by done. apply (ZB i o); [|done].
      destruct (_ =? 0); lia.
  - intros i o Hi Ho. destruct (decide (i = ms_ai s)) as [->|Hne].
    + rewrite list_lookup_insert_eq in Ho by (by eapply lookup_lt_Some).
      injection Ho as <-. simpl.
      destruct (volume a - Z.min (volume b) (volume a) =? 0) eqn:E; [|lia].
      by apply Z.eqb_eq in E.
    + rewrite list_lookup_insert_ne in Ho by done. apply (ZA i o); [|done].
      destruct (_ =? 0); lia.
  - eexists. split; [done|]. simpl. split; [lia|].
    rewrite !total_volume_insert by done. lia.
Qed.

Lemma match_loop_conserves tick fuel s :
  (forall i o, (ms_bi s <= i)%nat -> bids (ms_book s) !! i = Some o -> positive_volume o) ->
  (forall i o, (ms_ai s <= i)%nat -> asks (ms_book s) !! i = Some o -> positive_volume o) ->
  (forall i o, (i < ms_bi s)%nat -> bids (ms_book s) !! i = Some o -> volume o = 0) ->
  (forall i o, (i < ms_ai s)%nat -> asks (ms_book s) !! i = Some o -> volume o = 0) ->
  let s' := match_loop tick fuel s in
  (forall i o, (i < ms_bi s')%nat -> bids (ms_book s') !! i = Some o -> volume o = 0) /\
  (forall i o, (i < ms_ai s')%nat -> asks (ms_book s') !! i = Some o -> volume o = 0) /\
  exists ts,
    ms_trades s' = ms_trades s ++ ts /\ Forall (fun t => 0 < trade_volume t) ts /\
    total_volume (bids (ms_book s')) = total_volume (bids (ms_book s)) - Zsum (trade_volume <$> ts) /\
    total_volume (asks (ms_book s')) = total_volume (asks (ms_book s)) - Zsum (trade_volume <$> ts).
Proof.
  revert s. induction fuel as [|fuel IH]; intros s HB HA ZB ZA.
  { simpl. split; [done|]. split; [done|]. exists []. rewrite app_nil_r. simpl.
    split; [done|]. split; [constructor|lia]. }
  cbn [match_loop]. destruct (match_step tick s) as [s1|] eqn:Hs.
  2:{ split; [done|]. split; [done|]. exists []. rewrite app_nil_r. simpl.
      split; [done|]. split; [constructor|lia]. }
  destruct (match_step_positive tick s s1 HB HA Hs) as [HB1 HA1].
  destruct (match_step_conserves tick s s1 HB HA ZB ZA Hs)
    as (ZB1 & ZA1 & t & Ht & Hpos & Eb & Ea).
  destruct (IH s1 HB1 HA1 ZB1 ZA1) as (ZB2 & ZA2 & ts & Hts & Hall & Eb2 & Ea2).
  split; [done|]. split; [done|]. exists (t :: ts).
  split; [by rewrite Hts, Ht, <- app_assoc|].
  split; [by constructor|].
  rewrite Eb2, Ea2, Eb, Ea, fmap_cons.
  change (Zsum (trade_volume t :: (trade_volume <$> ts)))
    with (trade_volume t + Zsum (trade_volume <$> ts)).
  lia.
Qed.

(** X8. When every resting volume is positive, a pass executes only positive
    volumes, and what each side loses in resting volume is exactly the
    volume of the trades: the volume bought is the volume sold. *)
Theorem match_orders_conserves_volume (tick : Z) (ob : OrderBook) :
  book_positive ob ->
  Forall (fun t => 0 < trade_volume t) (match_orders tick ob).1 /\
  total_volume (bids ob) =
    total_volume (bids (match_orders tick ob).2) + Zsum (trade_volume <$> (match_orders tick ob).1) /\
  total_volume (asks ob) =
    total_volume (asks (match_orders tick ob).2) + Zsum (trade_volume <$> (match_orders tick ob).1).
Proof.
  intros [Hb Ha]. rewrite match_orders_unfold. simpl.
  destruct (match_loop_conserves tick (length (bids ob) + length (asks ob))
                                 (mkMatchState (sorted_book ob) 0 0 []))
    as (ZB & ZA & ts & Hts & Hall & Eb & Ea); simpl.
  - intros i o _ Ho. rewrite <- (std_sort_perm bid_cmp) in Hb.
    eapply Forall_lookup_1; [exact Hb|exact Ho].
  - intros i o _ Ho. rewrite <- (std_sort_perm ask_cmp) in Ha.
    eapply Forall_lookup_1; [exact Ha|exact Ho].
  - intros; lia.
  - intros; lia.
  - simpl in *. rewrite Hts. split; [done|].
    rewrite !total_volume_drop by done. rewrite Eb, Ea.
    rewrite (total_volume_perm _ _ (std_sort_perm bid_cmp (bids ob))).
    rewrite (total_volume_perm _ _ (std_sort_perm ask_cmp (asks ob))). lia.
Qed.

Lemma match_orders_conserves_volume_witness :
  let ob := mkOrderBook [mkOrder 1 0 100 5 true 0 1; mkOrder 2 0 100 5 true 1 2]
                        [mkOrder 3 0 100 7 false 2 3] 100 [100%Q] in
  Forall (fun t => 0 < trade_volume t) (match_orders 2 ob).1 /\
  total_volume (bids ob) =
    total_volume (bids (match_orders 2 ob).2) + Zsum (trade_volume <$> (match_orders 2 ob).1) /\
  total_volume (asks ob) =
    total_volume (asks (match_orders 2 ob).2) + Zsum (trade_volume <$> (match_orders 2 ob).1).
Proof.
  intros ob. apply (match_orders_conserves_volume 2 ob).
  split; repeat constructor; simpl; unfold INT_MAX; lia.
Defined.

(** * Further properties of the exchange *)

(** ** What [process_orders] returns and appends *)

Lemma wrap_int_add_r x y : wrap_int (x + wrap_int y) = wrap_int (x + y).
Proof. by rewrite Z.add_comm, wrap_int_add_l, Z.add_comm. Qed.

Lemma match_all_total tick books total log :
  int_range total ->
  (match_all tick books total log).1.2 =
  wrap_int (total + Z.of_nat (length (mjoin ((fun ob => (match_orders tick ob).1) <$> books)))).
Proof.
  revert total log. induction books as [|ob books IH]; intros total log Hr.
  - simpl. by rewrite Z.add_0_r, wrap_int_id.
  - rewrite match_all_cons. cbn [fst snd fmap list_fmap mjoin list_join].
    rewrite IH by apply wrap_int_range.
    rewrite wrap_int_add_l, length_app, Nat2Z.inj_add.
    set (a := Z.of_nat (length (match_orders tick ob).1)).
    set (L := Z.of_nat (length (mjoin ((fun ob => (match_orders tick ob).1) <$> books)))).
    replace (total + wrap_int a + L) with ((total + L) + wrap_int a) by lia.
    rewrite wrap_int_add_r. f_equal. lia.
Qed.

Lemma process_orders_count tick e :
  (process_orders tick e).1 =
  wrap_int (Z.of_nat (length (mjoin ((fun ob => (match_orders tick ob).1) <$>
                                       route_pending (order_books e) (pending_orders e))))).
Proof.
  unfold process_orders.
  pose proof (match_all_total tick (route_pending (order_books e) (pending_orders e))
                              0 (trade_log e)) as H.
  destruct (match_all tick _ 0 (trade_log e)) as [[books' total] log']. simpl in *.
  rewrite H; [done|]. unfold int_range, INT_MIN, INT_MAX. lia.
Qed.

Lemma match_orders_timestamps tick ob :
  Forall (fun t => trade_timestamp t = tick) (match_orders tick ob).1.
Proof.
  rewrite match_orders_trades. apply Forall_fmap, Forall_forall. by intros m _.
Qed.

(** X9. [process_orders] only appends to the trade log, stamps what it appends
    with its tick, and returns the number of trades appended (as an [int]:
    exactly, as long as that number fits). *)
Theorem process_orders_appends (tick : Z) (e : Exchange) :
  exists new,
    trade_log (process_orders tick e).2 = trade_log e ++ new /\
    Forall (fun t => trade_timestamp t = tick) new /\
    (process_orders tick e).1 = wrap_int (Z.of_nat (length new)) /\
    (Z.of_nat (length new) <= INT_MAX -> (process_orders tick e).1 = Z.of_nat (length new)).
Proof.
  exists (mjoin ((fun ob => (match_orders tick ob).1) <$>
                   route_pending (order_books e) (pending_orders e))).
  split; [apply process_orders_log|]. split; [|split].
  - apply Forall_join, Forall_fmap, Forall_forall. intros ob _.
    apply match_orders_timestamps.
  - apply process_orders_count.
  - intros Hle. rewrite process_orders_count. apply wrap_int_id.
    unfold int_range, INT_MIN, INT_MAX in *. lia.
Qed.

Lemma process_orders_appends_witness :
  let e := run (scenario_A_calls 1 2 0 0) (mkExchange 0 1 [OrderBook_new] [] [] 1) in
  (process_orders 3 e).1 = 1.
Proof.
  intros e. destruct (process_orders_appends 3 e) as (new & Hlog & _ & _ & Hcount).
  assert (new = (trade_log (process_orders 3 e).2)) as -> by (by rewrite Hlog).
  apply Hcount. vm_compute. discriminate.
Defined.

Lemma trade_log_run_app cs e : exists new, trade_log (run cs e) = trade_log e ++ new.
Proof.
  revert e. induction cs as [|c cs IH]; intros e.
  - exists []. simpl. by rewrite app_nil_r.
  - change (run (c :: cs) e) with (run cs (call c e)).
    destruct (IH (call c e)) as [new ->]. destruct c as [o|tick].
    + by exists new.
    + cbn [call]. rewrite process_orders_log, <- app_assoc. eauto.
Qed.

(** X10. Over any run the trade log only grows at its end: what was logged stays
    logged, in place. *)
Theorem trade_log_append_only (cs : list Call) (e : Exchange) :
  trade_log e `prefix_of` trade_log (run cs e).
Proof. destruct (trade_log_run_app cs e) as [new ->]. by apply prefix_app_r. Qed.

(** ** The instruments of an exchange *)

Lemma run_cons c cs e : run (c :: cs) e = run cs (call c e).
Proof. done. Qed.

Lemma call_shape c e :
  rank (call c e) = rank e /\
  num_instruments (call c e) = num_instruments e /\
  length (order_books (call c e)) = length (order_books e).
Proof.
  destruct c as [o|tick]; simpl; [done|].
  rewrite process_orders_books, length_fmap, route_pending_length.
  unfold process_orders.
  by destruct (match_all tick _ 0 (trade_log e)) as [[books' total] log'].
Qed.

Lemma run_shape cs e :
  rank (run cs e) = rank e /\
  num_instruments (run cs e) = num_instruments e /\
  length (order_books (run cs e)) = length (order_books e).
Proof.
  revert e. induction cs as [|c cs IH]; intros e; [done|].
  rewrite run_cons. destruct (IH (call c e)) as (-> & -> & ->). apply call_shape.
Qed.

(** X11. An exchange keeps, for its whole life, the rank and the number of
    instruments it was constructed with, and one book per instrument: the
    instrument ids it accepts are exactly 0 .. num_instruments - 1. *)
Theorem exchange_instruments_fixed (cs : list Call) (rank_ n : Z) (e : Exchange) :
  Exchange_new rank_ n = Some e ->
  0 <= n /\
  rank (run cs e) = rank_ /\
  num_instruments (run cs e) = n /\
  Z.of_nat (length (order_books (run cs e))) = n /\
  (forall i, valid_instrument (order_books (run cs e)) i = true <-> 0 <= i < n).
Proof.
  intros He. assert (0 <= n) as Hn.
  { unfold Exchange_new in He. destruct (n <? 0) eqn:E; [done|]. by apply Z.ltb_ge in E. }
  apply Exchange_new_Some in He as ->.
  destruct (run_shape cs (mkExchange rank_ n (replicate (Z.to_nat n) OrderBook_new) [] [] 1))
    as (Hr & Hi & Hl). simpl in *.
  assert (Z.of_nat (length (order_books
            (run cs (mkExchange rank_ n (replicate (Z.to_nat n) OrderBook_new) [] [] 1)))) = n)
    as Hlen by (rewrite Hl, length_replicate; lia).
  repeat split; try done.
  - apply valid_instrument_true in H. lia.
  - apply valid_instrument_true in H. lia.
  - intros. apply valid_instrument_true. lia.
Qed.

Lemma exchange_instruments_fixed_witness :
  num_instruments (run (scenario_A_calls 1 2 0 0) (mkExchange 0 1 [OrderBook_new] [] [] 1)) = 1.
Proof.
  apply (exchange_instruments_fixed (scenario_A_calls 1 2 0 0) 0 1
           (mkExchange 0 1 [OrderBook_new] [] [] 1)).
  reflexivity.
Defined.

(** X12. [get_all_prices] returns one price per book, the one [get_price] returns
    for that instrument, and leaves the exchange as it is. *)
Theorem get_all_prices_get_price (e : Exchange) (i : Z) :
  0 <= i < Z.of_nat (length (order_books e)) ->
  (get_all_prices e).1 !! Z.to_nat i = Some (get_price i e).1 /\
  length (get_all_prices e).1 = length (order_books e) /\
  (get_all_prices e).2 = e.
Proof.
  intros Hi. unfold get_all_prices, get_price. simpl.
  rewrite (proj2 (valid_instrument_true _ _) Hi), list_lookup_fmap, length_fmap.
  destruct (lookup_lt_is_Some_2 (order_books e) (Z.to_nat i) ltac:(lia)) as [ob ->].
  done.
Qed.

Lemma get_all_prices_get_price_witness :
  (get_all_prices (mkExchange 0 2 [OrderBook_new; scenario_A_book] [] [] 1)).1 !! Z.to_nat 1
  = Some (get_price 1 (mkExchange 0 2 [OrderBook_new; scenario_A_book] [] [] 1)).1.
Proof.
  apply (get_all_prices_get_price
           (mkExchange 0 2 [OrderBook_new; scenario_A_book] [] [] 1) 1).
  simpl. lia.
Defined.

(** ** Orders are where their instrument and side say *)

Lemma add_order_routed i o ob :
  instrument_id o = Z.of_nat i -> book_routed i ob -> book_routed i (add_order o ob).
Proof.
  intros Hi [Hb Ha]. unfold add_order, book_routed.
  destruct (is_buy o) eqn:E; simpl; rewrite ?Forall_app, ?Forall_singleton; tauto.
Qed.

Lemma add_orders_for_routed i pending ob :
  book_routed i ob -> book_routed i (add_orders_for i pending ob).
Proof.
  unfold add_orders_for. revert ob. induction pending as [|o pending IH]; intros ob Hob.
  - done.
  - rewrite filter_cons. destruct (decide (instrument_id o = Z.of_nat i)); [|by apply IH].
    simpl. apply IH. by apply add_order_routed.
Qed.

Lemma match_orders_side_submseteq tick ob :
  erase_volume <$> bids (match_orders tick ob).2 ⊆+ erase_volume <$> bids ob /\
  erase_volume <$> asks (match_orders tick ob).2 ⊆+ erase_volume <$> asks ob.
Proof.
  destruct (match_orders_sides_erase tick ob) as (nb & na & Hb & Ha).
  rewrite Hb, Ha. simpl. split.
  - etrans; [apply submseteq_drop|]. by rewrite (std_sort_perm bid_cmp).
  - etrans; [apply submseteq_drop|]. by rewrite (std_sort_perm ask_cmp).
Qed.

Lemma Forall_erase_volume (P : Order -> Prop) (l : list Order) :
  (forall o, P o <-> P (erase_volume o)) ->
  Forall P l <-> Forall P (erase_volume <$> l).
Proof.
  intros HP. rewrite Forall_fmap.
  split; intros H; (eapply Forall_impl; [exact H|]); intros o Ho; simpl in *.
  - by apply (proj1 (HP o)).
  - by apply (proj2 (HP o)).
Qed.

Lemma match_orders_routed tick i ob :
  book_routed i ob -> book_routed i (match_orders tick ob).2.
Proof.
  intros [Hb Ha]. destruct (match_orders_side_submseteq tick ob) as [Sb Sa].
  set (P := fun (side : bool) (o : Order) =>
              instrument_id o = Z.of_nat i /\ is_buy o = side).
  assert (forall side o, P side o <-> P side (erase_volume o)) as HP by done.
  split.
  - apply (proj2 (Forall_erase_volume (P true) _ (HP true))).
    eapply Forall_submseteq_inv; [|exact Sb].
    apply (proj1 (Forall_erase_volume (P true) _ (HP true))). exact Hb.
  - apply (proj2 (Forall_erase_volume (P false) _ (HP false))).
    eapply Forall_submseteq_inv; [|exact Sa].
    apply (proj1 (Forall_erase_volume (P false) _ (HP false))). exact Ha.
Qed.

Lemma match_orders_instrument tick i ob :
  book_routed i ob ->
  Forall (fun t => trade_instrument_id t = Z.of_nat i) (match_orders tick ob).1.
Proof.
  intros [Hb _]. rewrite match_orders_trades. apply Forall_fmap, Forall_forall.
  intros m [n Hn]%list_elem_of_lookup_1. simpl.
  destruct (loop_matches_orders _ _ _ _ _ Hn) as (b & a & Hbk & Eb & _ & _).
  simpl in Hbk. rewrite <- (std_sort_perm bid_cmp) in Hb.
  pose proof (Forall_lookup_1 _ _ _ _ Hb Hbk) as [Hi _].
  rewrite <- Hi. by injection Eb.
Qed.

Lemma process_orders_routed tick e :
  (forall i ob, order_books e !! i = Some ob -> book_routed i ob) ->
  forall i ob, order_books (process_orders tick e).2 !! i = Some ob -> book_routed i ob.
Proof.
  intros H i ob. rewrite process_orders_books, list_lookup_fmap, route_pending_lookup.
  destruct (order_books e !! i) as [ob0|] eqn:E; [|done]. simpl. intros [= <-].
  apply match_orders_routed, add_orders_for_routed. by apply H.
Qed.

Lemma reachable_routed e :
  reachable e -> forall i ob, order_books e !! i = Some ob -> book_routed i ob.
Proof.
  induction 1 as [rank_ n e He|c e _ IH].
  - apply Exchange_new_Some in He as ->. simpl. intros i ob [-> _]%lookup_replicate.
    split; constructor.
  - destruct c as [o|tick]; simpl; [done|]. by apply process_orders_routed.
Qed.

Lemma process_orders_trade_instruments tick e :
  (forall i ob, order_books e !! i = Some ob -> book_routed i ob) ->
  Forall (fun t => valid_instrument (order_books e) (trade_instrument_id t) = true)
         (mjoin ((fun ob => (match_orders tick ob).1) <$>
                   route_pending (order_books e) (pending_orders e))).
Proof.
  intros H. apply Forall_join, Forall_fmap, Forall_lookup_2. intros i ob Hi. simpl.
  pose proof Hi as Hlt. apply lookup_lt_Some in Hlt. rewrite route_pending_length in Hlt.
  rewrite route_pending_lookup in Hi.
  destruct (order_books e !! i) as [ob0|] eqn:E; [|done]. injection Hi as <-.
  eapply Forall_impl.
  - apply (match_orders_instrument tick i), add_orders_for_routed. by apply H.
  - intros t ->. apply valid_instrument_true. lia.
Qed.

(** X13. In every state an exchange reaches, the bids of book [i] are buy orders
    for instrument [i] and its asks are sell orders for instrument [i]; and
    every trade in the log names an instrument of the exchange. *)
Theorem orders_rest_in_their_book (e : Exchange) :
  reachable e ->
  (forall i ob, order_books e !! i = Some ob -> book_routed i ob) /\
  Forall (fun t => valid_instrument (order_books e) (trade_instrument_id t) = true)
         (trade_log e).
Proof.
  intros Hr. split; [by apply reachable_routed|].
  induction Hr as [rank_ n e He|c e Hr IH].
  - apply Exchange_new_Some in He as ->. constructor.
  - destruct (call_shape c e) as (_ & _ & Hlen).
    destruct c as [o|tick]; simpl in *; [done|].
    rewrite process_orders_log. apply Forall_app. split.
    + eapply Forall_impl; [exact IH|]. intros t Ht. simpl in Ht.
      by rewrite (valid_instrument_length _ (order_books e)).
    + eapply Forall_impl; [apply process_orders_trade_instruments, reachable_routed, Hr|].
      intros t Ht. simpl in Ht. by rewrite (valid_instrument_length _ (order_books e)).
Qed.

Lemma orders_rest_in_their_book_witness :
  Forall (fun t => valid_instrument
                     (order_books (call (Process 1)
                        (run (scenario_A_calls 1 2 0 0)
                             (mkExchange 0 1 [OrderBook_new] [] [] 1))))
                     (trade_instrument_id t) = true)
         (trade_log (call (Process 1)
                       (run (scenario_A_calls 1 2 0 0)
                            (mkExchange 0 1 [OrderBook_new] [] [] 1)))).
Proof.
  apply (orders_rest_in_their_book
           (call (Process 1) (run (scenario_A_calls 1 2 0 0)
                                  (mkExchange 0 1 [OrderBook_new] [] [] 1)))).
  apply reachable_call.
  apply (reachable_call (Submit (mkOrder 2 0 99 10 false 1 0))).
  apply (reachable_call (Submit (mkOrder 1 0 101 10 true 0 0))).
  by apply (reachable_new 0 1).
Defined.

(** ** [process_orders] with nothing to do *)

Lemma match_all_nothing tick books log :
  Forall (fun ob => match_orders tick ob = ([], ob)) books ->
  match_all tick books 0 log = (books, 0, log).
Proof.
  revert log. induction 1 as [|ob books Hob _ IH]; [done|].
  rewrite match_all_cons, Hob. cbn [fst snd length]. rewrite app_nil_r.
  change (wrap_int (0 + wrap_int (Z.of_nat 0))) with 0. by rewrite IH.
Qed.

Lemma process_orders_nothing tick e :
  pending_orders e = [] ->
  Forall (fun ob => match_orders tick ob = ([], ob)) (order_books e) ->
  process_orders tick e = (0, e).
Proof.
  intros Hp Hb. unfold process_orders. rewrite Hp. simpl.
  rewrite (match_all_nothing tick _ _ Hb). destruct e; simpl in *. by subst.
Qed.



(** X15. With an empty queue and no resting order, in particular on a newly
    constructed exchange, [process_orders] returns 0 and leaves the exchange
    as it is. *)
Theorem process_orders_empty (tick : Z) (e : Exchange) :
  (pending_orders e = [] ->
   Forall (fun ob => bids ob = [] /\ asks ob = []) (order_books e) ->
   process_orders tick e = (0, e)) /\
  (forall rank_ n, Exchange_new rank_ n = Some e -> process_orders tick e = (0, e)).
Proof.
  assert (pending_orders e = [] ->
          Forall (fun ob => bids ob = [] /\ asks ob = []) (order_books e) ->
          process_orders tick e = (0, e)) as H.
  { intros Hp Hb. apply process_orders_nothing; [done|].
    eapply Forall_impl; [exact Hb|]. intros [bs as_ lp h] [Hbs Has]. simpl in *.
    by subst. }
  split; [done|]. intros rank_ n -> %Exchange_new_Some. apply H; [done|].
  simpl. by apply Forall_replicate.
Qed.

Lemma process_orders_empty_witness :
  process_orders 5 (mkExchange 0 3 (replicate (Z.to_nat 3) OrderBook_new) [] [] 1)
  = (0, mkExchange 0 3 (replicate (Z.to_nat 3) OrderBook_new) [] [] 1).
Proof.
  apply (proj2 (process_orders_empty 5
           (mkExchange 0 3 (replicate (Z.to_nat 3) OrderBook_new) [] [] 1)) 0 3).
  reflexivity.
Defined.

(** ** The price of an instrument after [process_orders] *)

Lemma add_orders_for_last_price i pending ob :
  last_price (add_orders_for i pending ob) = last_price ob.
Proof.
  unfold add_orders_for.
  generalize (filter (fun o => instrument_id o = Z.of_nat i) pending). intros l.
  revert ob. induction l as [|o l IH]; intros ob; [done|].
  simpl. by rewrite IH, add_order_last_price.
Qed.

(** The trades of one [process_orders] call in the book of instrument
    [i]. *)
Lemma process_orders_book tick e (i : nat) ob :
  order_books e !! i = Some ob ->
  order_books (process_orders tick e).2 !! i =
    Some (match_orders tick (add_orders_for i (pending_orders e) ob)).2.
Proof.
  intros Hi. by rewrite process_orders_books, list_lookup_fmap, route_pending_lookup, Hi.
Qed.

(** X16. After [process_orders], [get_price] of an instrument is the price of the
    last trade the call made in that instrument's book, and what it was
    before when the call made none there. *)
Theorem get_price_after_process (tick : Z) (e : Exchange) (i : nat) (ob : OrderBook) :
  order_books e !! i = Some ob ->
  (get_price (Z.of_nat i) (process_orders tick e).2).1 =
  default (get_price (Z.of_nat i) e).1
          (trade_price <$>
             last (match_orders tick (add_orders_for i (pending_orders e) ob)).1).
Proof.
  intros Hi. pose proof (process_orders_book tick e i ob Hi) as Hi'.
  pose proof (lookup_lt_Some _ _ _ Hi) as Hlt.
  pose proof (lookup_lt_Some _ _ _ Hi') as Hlt'.
  unfold get_price. simpl.
  rewrite (proj2 (valid_instrument_true (order_books e) (Z.of_nat i))) by lia.
  rewrite (proj2 (valid_instrument_true (order_books (process_orders tick e).2) (Z.of_nat i)))
    by lia.
  rewrite Nat2Z.id, Hi, Hi'. unfold get_last_price.
  by rewrite match_orders_last_price, add_orders_for_last_price.
Qed.

Lemma get_price_after_process_witness :
  let e := run (scenario_A_calls 1 2 0 0) (mkExchange 0 1 [OrderBook_new] [] [] 1) in
  (get_price (Z.of_nat 0) (process_orders 1 e).2).1 =
  default (get_price (Z.of_nat 0) e).1
          (trade_price <$>
             last (match_orders 1 (add_orders_for 0 (pending_orders e) OrderBook_new)).1).
Proof.
  intros e. apply (get_price_after_process 1 e 0 OrderBook_new). reflexivity.
Defined.

(** ** The exported price table *)

Lemma foldl_max_ge (books : list OrderBook) (m : nat) :
  (m <= foldl (fun max_len ob => Nat.max max_len (length (price_history ob))) m books)%nat /\
  Forall (fun ob => (length (price_history ob) <=
                     foldl (fun max_len ob => Nat.max max_len (length (price_history ob)))
                           m books)%nat) books.
Proof.
  revert m. induction books as [|ob books IH]; intros m; simpl.
  - split; [lia|constructor].
  - destruct (IH (Nat.max m (length (price_history ob)))) as [Hm Hall].
    split; [lia|]. constructor; [lia|done].
Qed.

Lemma longest_history_ge books i ob :
  books !! i = Some ob -> (length (price_history ob) <= longest_history books)%nat.
Proof.
  intros Hi. destruct (foldl_max_ge books 0) as [_ Hall].
  apply (Forall_lookup_1 _ _ _ _ Hall Hi).
Qed.

(** X17. [export_price_history] hands the output stream one row per entry
    of the longest history, numbered from 0, with one double per book; read
    down, the doubles handed over for a book are the entries of its price
    history followed by its last entry repeated to the end of the table
    (how the stream prints a double is not part of the statement). *)
Theorem export_price_history_columns (e : Exchange) (i : nat) (ob : OrderBook) :
  order_books e !! i = Some ob ->
  (export_price_history e).*1 = seq 0 (longest_history (order_books e)) /\
  Forall (fun row => length row.2 = length (order_books e)) (export_price_history e) /\
  (fun row => default 0%Q (row.2 !! i)) <$> export_price_history e =
    price_history ob ++
    replicate (longest_history (order_books e) - length (price_history ob))
              (default 0%Q (last (price_history ob))).
Proof.
  intros Hi. pose proof (longest_history_ge _ _ _ Hi) as Hlen.
  unfold export_price_history. split; [|split].
  - rewrite <- list_fmap_compose. apply list_fmap_id.
  - apply Forall_fmap, Forall_forall. intros t _. simpl. by rewrite length_fmap.
  - rewrite <- list_fmap_compose. apply list_eq. intros t.
    rewrite list_lookup_fmap.
    destruct (decide (t < longest_history (order_books e))%nat) as [Ht|Ht].
    + rewrite lookup_seq_lt by done. simpl. rewrite list_lookup_fmap, Hi. simpl.
      unfold history_value.
      destruct (price_history ob !! t) as [v|] eqn:Hv.
      * by rewrite lookup_app_l, Hv by (by eapply lookup_lt_Some).
      * apply lookup_ge_None in Hv.
        rewrite lookup_app_r by done. rewrite lookup_replicate_2 by lia.
        by destruct (last (price_history ob)).
    + rewrite lookup_seq_ge by lia. simpl. symmetry. apply lookup_ge_None.
      rewrite length_app, length_replicate. lia.
Qed.

Lemma export_price_history_columns_witness :
  (fun row => default 0%Q (row.2 !! 0%nat))
    <$> export_price_history (mkExchange 0 2 [OrderBook_new; scenario_A_book] [] [] 1) =
  price_history OrderBook_new ++
  replicate (longest_history [OrderBook_new; scenario_A_book]
             - length (price_history OrderBook_new))
            (default 0%Q (last (price_history OrderBook_new))).
Proof.
  apply (export_price_history_columns
           (mkExchange 0 2 [OrderBook_new; scenario_A_book] [] [] 1) 0 OrderBook_new).
  reflexivity.
Defined.


(** * Orders are neither made nor multiplied *)

Lemma match_loop_trade_count tick fuel s :
  (length (ms_trades (match_loop tick fuel s)) + remaining (match_loop tick fuel s)
   <= length (ms_trades s) + remaining s)%nat.
Proof.
  revert s. induction fuel as [|fuel IH]; intros s; simpl; [lia|].
  destruct (match_step tick s) as [s'|] eqn:Hs; [|lia].
  pose proof (match_step_remaining _ _ _ Hs) as Hrem.
  destruct (match_step_history _ _ _ Hs) as (t & Ht & _).
  specialize (IH s'). rewrite Ht, length_app in IH. simpl in IH. lia.
Qed.

(** X21. Every trade of a pass takes at least one order off the book: a pass
    records no more trades than it removes orders, so at most as many as
    there were orders. *)
Theorem match_orders_trade_count (tick : Z) (ob : OrderBook) :
  (length (match_orders tick ob).1
   + length (bids (match_orders tick ob).2) + length (asks (match_orders tick ob).2)
   <= length (bids ob) + length (asks ob))%nat.
Proof.
  rewrite match_orders_unfold. simpl.
  pose proof (match_loop_trade_count tick (length (bids ob) + length (asks ob))
                                     (mkMatchState (sorted_book ob) 0 0 [])) as H.
  rewrite sorted_book_remaining in H. simpl in H.
  unfold remaining in H. rewrite !length_drop. lia.
Qed.

Lemma match_all_orders tick books :
  erase_volume <$> mjoin (book_orders <$> ((fun ob => (match_orders tick ob).2) <$> books))
    ⊆+ erase_volume <$> mjoin (book_orders <$> books).
Proof.
  induction books as [|ob books IH]; [done|].
  cbn [fmap list_fmap mjoin list_join]. rewrite !fmap_app. apply submseteq_app; [|exact IH].
  apply match_orders_submseteq.
Qed.

(** X22. [process_orders] makes no order and copies none: the orders resting
    afterwards are, volumes aside, among those that were resting or queued,
    each at most as often. *)
Theorem process_orders_keeps_orders (tick : Z) (e : Exchange) :
  erase_volume <$> resting (process_orders tick e).2 ⊆+ erase_volume <$> live e /\
  pending_orders (process_orders tick e).2 = [].
Proof.
  split; [|apply process_orders_pending].
  unfold live, resting. rewrite process_orders_books.
  etrans; [apply match_all_orders|].
  apply fmap_submseteq, route_pending_orders.
Qed.
